(** * Email notification system: the subscription and persistence core

    A shallow embedding of [dataloader.py] (the Streamlit application
    [app.py]): the pydantic models, the notification update performed for
    every selected topic in the Notifications tab, the Add Recipient
    handler, and [load_data] / [save_data].

    Conventions.
    - A [datetime] is an integer timestamp ([Z]); [datetime.now()] is an
      argument [now] of the code that reads the clock.
    - Python code that may raise runs in the error monad [Py].
    - The dicts produced by [Notification(...).dict()] and
      [Recipient(...).dict()] are kept as the records [Notification] and
      [Recipient]; their Python value (the dict itself) is given by
      [Notification_dict] and [Recipient_dict] where the JSON file is
      concerned. *)

From Stdlib Require Import ZArith String List Sorted Lia.
From stdpp Require Import base option list sorting strings.

Set Warnings "-register-all".

Open Scope string_scope.
Open Scope Z_scope.
Open Scope list_scope.

(** ** Exceptions and the error monad *)

Inductive PyExn : Type :=
| ValidationError   (* pydantic: a field failed validation *)
| TypeError         (* json.dump: object is not JSON serializable *)
| JSONDecodeError   (* json.load: the file is not a JSON document *)
| AttributeError.   (* data.get on a value that is not a dict *)

Inductive Py (A : Type) : Type :=
| Ok (a : A)
| Raise (e : PyExn).
Arguments Ok {A} a.
Arguments Raise {A} e.

#[global] Instance Py_ret : MRet Py := fun A a => Ok a.
#[global] Instance Py_bind : MBind Py := fun A B f m =>
  match m with
  | Ok a => f a
  | Raise e => Raise e
  end.

#[global] Instance Py_fmap : FMap Py := fun A B f m =>
  match m with
  | Ok a => Ok (f a)
  | Raise e => Raise e
  end.

(** ** Pydantic models (lines 19-35) *)

Record EmailConfig : Type := {
  sender_email : string;
  sender_password : string;
  smtp_server : string;
  smtp_port : Z
}.

Record Notification : Type := {
  topic : string;
  frequency : string;           (* instant, daily, weekly, monthly *)
  last_sent : option Z
}.

Record Recipient : Type := {
  email : string;
  topics : list string;
  notifications : list Notification
}.

(** [Notification(topic=.., frequency=.., last_sent=..)]: the model declares
    [frequency: str] and no validator, so pydantic accepts every string. *)
Definition Notification_init (t f : string) (ls : option Z) : Py Notification :=
  Ok {| topic := t; frequency := f; last_sent := ls |}.

(** The four options of the frequency selectbox (line 291). *)
Definition frequency_options : list string :=
  ["instant"; "daily"; "weekly"; "monthly"].

(** ** The notification update of one selected topic (lines 305-336) *)

(** The [for i, n in enumerate(notifications)] loop up to its [break]: the
    first position whose record has the topic, with that record. *)
Fixpoint first_with_topic (t : string) (i : nat) (ns : list Notification)
  : option (nat * Notification) :=
  match ns with
  | [] => None
  | n :: rest =>
      if String.eqb (topic n) t then Some (i, n)
      else first_with_topic t (S i) rest
  end.

Definition merge_step (ns : list Notification) (t f : string) (now : Z)
  : Py (list Notification) :=
  match first_with_topic t 0 ns with
  | Some (i, n) =>
      (* notifications[i] = Notification(...).dict(); break *)
      n' ← Notification_init t f
             (if String.eqb f "instant" then Some now else last_sent n);
      Ok (<[i := n']> ns)
  | None =>
      (* if not notification_exists: notifications.append(...) *)
      n' ← Notification_init t f
             (if String.eqb f "instant" then Some now else None);
      Ok (ns ++ [n'])
  end.

(** ** The Notification Schedule loop (lines 284-336) *)

(** The message [send_email] hands to the SMTP transport when
    [send_instant_email] is called (lines 131-182).  The body only repeats
    the topic and the time of sending; the transport's answer is reported on
    the page and changes no state. *)
Record Email : Type := {
  msg_from : string;
  msg_to : string;
  msg_subject : string
}.

Definition send_instant_email (config : EmailConfig) (recipient_email t : string)
  : Email :=
  {| msg_from := sender_email config;
     msg_to := recipient_email;
     msg_subject := "Notification Update: " ++ t |}.

(** What one iteration of [for topic in selected_topics] reads from the page
    and from the clock. *)
Record Selection : Type := {
  sel_topic : string;       (* the topic of the iteration *)
  sel_frequency : string;   (* the selectbox with key freq_{topic} *)
  sel_send_now : bool;      (* the button with key send_{topic} was clicked *)
  sel_now : Z               (* datetime.now() *)
}.

(** One iteration: the Send Now column (lines 294-303), then the update of
    the recipient's notifications (lines 305-336).  The state is the
    recipient's notification list and the messages sent so far. *)
Definition schedule_topic (config : option EmailConfig) (selected_recipient : string)
    (st : list Notification * list Email) (s : Selection)
  : Py (list Notification * list Email) :=
  let outbox :=
    if String.eqb (sel_frequency s) "instant" && sel_send_now s then
      match config with
      | Some c => st.2 ++ [send_instant_email c selected_recipient (sel_topic s)]
      | None => st.2      (* "Please configure email settings ..." *)
      end
    else st.2 in
  ns ← merge_step st.1 (sel_topic s) (sel_frequency s) (sel_now s);
  Ok (ns, outbox).

Fixpoint notification_schedule (config : option EmailConfig)
    (selected_recipient : string) (st : list Notification * list Email)
    (sels : list Selection) : Py (list Notification * list Email) :=
  match sels with
  | [] => Ok st
  | s :: rest =>
      st' ← schedule_topic config selected_recipient st s;
      notification_schedule config selected_recipient st' rest
  end.

(** Streamlit runs the script again on every interaction: a session is a
    sequence of runs of the loop on the same recipient. *)
Fixpoint reruns (config : option EmailConfig) (selected_recipient : string)
    (st : list Notification * list Email) (runs : list (list Selection))
  : Py (list Notification * list Email) :=
  match runs with
  | [] => Ok st
  | sels :: rest =>
      st' ← notification_schedule config selected_recipient st sels;
      reruns config selected_recipient st' rest
  end.

(** The notification list through the loop: what the iterations do to it,
    whatever is sent (see [notification_schedule_merge]). *)
Fixpoint merge (ns : list Notification) (sels : list Selection)
  : Py (list Notification) :=
  match sels with
  | [] => Ok ns
  | s :: rest =>
      ns' ← merge_step ns (sel_topic s) (sel_frequency s) (sel_now s);
      merge ns' rest
  end.

Definition selection_of (f : string) (now : Z) (click : string -> bool)
    (t : string) : Selection :=
  {| sel_topic := t; sel_frequency := f; sel_send_now := click t; sel_now := now |}.

(** ** Python values and the JSON file (lines 117-127) *)

Inductive pyval : Type :=
| PyNone
| PyStr (s : string)
| PyDatetime (t : Z)
| PyList (items : list pyval)
| PyDict (items : list (string * pyval)).

(** The document [json.dump] writes, up to its text. *)
Inductive json : Type :=
| JNull
| JString (s : string)
| JArray (items : list json)
| JObject (members : list (string * json)).

(** [json.dump] with the default encoder: a datetime is not serializable. *)
Fixpoint json_dump (v : pyval) : Py json :=
  match v with
  | PyNone => Ok JNull
  | PyStr s => Ok (JString s)
  | PyDatetime _ => Raise TypeError
  | PyList items => js ← mapM json_dump items; Ok (JArray js)
  | PyDict items =>
      ms ← mapM (fun kv => j ← json_dump kv.2; Ok (kv.1, j)) items;
      Ok (JObject ms)
  end.

Fixpoint json_load (j : json) : pyval :=
  match j with
  | JNull => PyNone
  | JString s => PyStr s
  | JArray items => PyList (map json_load items)
  | JObject members => PyDict (map (fun m => (m.1, json_load m.2)) members)
  end.

(** [d.get(key, default)] on the items of a dict. *)
Fixpoint dict_get (key : string) (default : pyval) (items : list (string * pyval))
  : pyval :=
  match items with
  | [] => default
  | (k, v) :: rest => if String.eqb k key then v else dict_get key default rest
  end.

(** [Notification.dict()] and [Recipient.dict()]. *)
Definition Notification_dict (n : Notification) : pyval :=
  PyDict [("topic", PyStr (topic n));
          ("frequency", PyStr (frequency n));
          ("last_sent", match last_sent n with
                        | Some t => PyDatetime t
                        | None => PyNone
                        end)].

Definition Recipient_dict (r : Recipient) : pyval :=
  PyDict [("email", PyStr (email r));
          ("topics", PyList (PyStr <$> topics r));
          ("notifications", PyList (Notification_dict <$> notifications r))].

(** [st.session_state.recipients] and [st.session_state.topics] as the Python
    lists they are. *)
Definition recipients_value (rs : list Recipient) : pyval :=
  PyList (Recipient_dict <$> rs).

Definition topics_value (ts : list string) : pyval :=
  PyList (PyStr <$> ts).

(** The file data.json: absent, a complete document, or what is left of it
    after [json.dump] raised while writing (the file is opened with "w" and
    written piece by piece, so it holds an unfinished document). *)
Inductive DataFile : Type :=
| NoFile
| Document (j : json)
| Truncated.

(** [save_data]: the file afterwards, and whether the call returned. *)
Definition save_data (recipients topics : pyval) : DataFile * Py unit :=
  match json_dump (PyDict [("recipients", recipients); ("topics", topics)]) with
  | Ok j => (Document j, Ok tt)
  | Raise e => (Truncated, Raise e)
  end.

Definition load_data (file : DataFile) : Py (pyval * pyval) :=
  match file with
  | NoFile => Ok (PyList [], PyList [])
  | Truncated => Raise JSONDecodeError
  | Document j =>
      match json_load j with
      | PyDict data =>
          Ok (dict_get "recipients" (PyList []) data,
              dict_get "topics" (PyList []) data)
      | _ => Raise AttributeError
      end
  end.

(** ** The Add Recipient handler (lines 212-220) *)

Record SessionState : Type := {
  ss_recipients : list Recipient;    (* st.session_state.recipients *)
  ss_topics : list string            (* st.session_state.topics *)
}.

(** What the page reports: [st.success] or [st.error] with the exception. *)
Inductive Notice : Type :=
| Success
| Error (e : PyExn).

Section AddRecipient.

(** pydantic's [EmailStr]: [None] when the string is not an email
    address, otherwise the address as the model stores it. *)
Variable EmailStr_validate : string -> option string.

(** [Recipient(email=new_email)]: the other fields take their defaults. *)
Definition Recipient_init (e : string) : Py Recipient :=
  match EmailStr_validate e with
  | Some a => Ok {| email := a; topics := []; notifications := [] |}
  | None => Raise ValidationError
  end.

(** [clicked] is [st.button("Add Recipient")]; an empty [new_email] is
    falsy.  The result is the session state, the file and the notice. *)
Definition add_recipient (clicked : bool) (new_email : string)
    (ss : SessionState) (file : DataFile)
  : SessionState * DataFile * option Notice :=
  if clicked && negb (String.eqb new_email "") then
    match Recipient_init new_email with
    | Raise e => (ss, file, Some (Error e))
    | Ok r =>
        let ss' := {| ss_recipients := ss_recipients ss ++ [r];
                      ss_topics := ss_topics ss |} in
        match save_data (recipients_value (ss_recipients ss'))
                        (topics_value (ss_topics ss')) with
        | (file', Ok _) => (ss', file', Some Success)
        | (file', Raise e) => (ss', file', Some (Error e))
        end
    end
  else (ss, file, None).

End AddRecipient.

(** ** Due evaluation *)

Inductive DueStatus : Type :=
| NotDue
| Due
| Invalid.

(** Timestamps count seconds. *)
Definition hours (h : Z) : Z := h * 3600.

(** Modelled from the spec: the repository has no code that compares the
    clock with [last_sent] (no periodic scan, no due evaluator); this is
    section 4.3 of the specification, word for word.  The period of a
    recurring frequency, absent for any other string. *)
Definition period (f : string) : option Z :=
  if String.eqb f "daily" then Some (hours 24)
  else if String.eqb f "weekly" then Some (7 * hours 24)
  else if String.eqb f "monthly" then Some (30 * hours 24)
  else None.

(** Modelled from the spec: the due evaluator of section 4.3, absent from
    the repository.  An instant record is sent at selection time and never by
    the periodic scan; a recurring one is due when it was never sent or its
    period has elapsed ([>=]); any other frequency is invalid. *)
Definition due_eval (n : Notification) (now : Z) : DueStatus :=
  if String.eqb (frequency n) "instant" then NotDue
  else
    match period (frequency n) with
    | None => Invalid
    | Some p =>
        match last_sent n with
        | None => Due
        | Some sent => if p <=? now - sent then Due else NotDue
        end
    end.

(** ** Orders and predicates used in the statements *)

(** [last_sent] values in time order, an absent one before every time. *)
Definition last_sent_le (a b : option Z) : Prop :=
  match a, b with
  | None, _ => True
  | Some _, None => False
  | Some x, Some y => x <= y
  end.

(** The value [last_sent] takes in the record written by [merge_step]. *)
Definition stamped (f : string) (now : Z) (old : option Z) : option Z :=
  if String.eqb f "instant" then Some now else old.

(** The messages one iteration of the loop hands to the transport. *)
Definition sent_in (config : option EmailConfig) (selected_recipient : string)
    (s : Selection) : list Email :=
  if String.eqb (sel_frequency s) "instant" && sel_send_now s then
    match config with
    | Some c => [send_instant_email c selected_recipient (sel_topic s)]
    | None => []
    end
  else [].

(** The first record of topic [t] in [ns] is one that an iteration of [sels]
    wrote. *)
Definition written_by (sels : list Selection) (ns : list Notification)
    (t : string) : Prop :=
  exists i s old,
    s ∈ sels /\ sel_topic s = t /\
    first_with_topic t 0 ns =
      Some (i, {| topic := t; frequency := sel_frequency s;
                  last_sent := stamped (sel_frequency s) (sel_now s) old |}).

(** [n2] is [n1], or [n1] with its [last_sent] replaced by the clock reading
    of an iteration of [sels] for its topic. *)
Definition restamped (sels : list Selection) (n1 n2 : Notification) : Prop :=
  topic n2 = topic n1 /\ frequency n2 = frequency n1 /\
  (last_sent n2 = last_sent n1 \/
   exists s, s ∈ sels /\ sel_topic s = topic n1 /\
             last_sent n2 = Some (sel_now s)).

(** What holds of the list [B] while the instant selections [sels] are
    merged again into [ns1], which already has an instant record for each of
    them: the first record of every selected topic is an instant record, and
    [B] is [ns1] restamped. *)
Definition rerun_invariant (sels : list Selection)
    (ns1 B : list Notification) : Prop :=
  (forall s, s ∈ sels ->
     exists i ls, first_with_topic (sel_topic s) 0 B =
                    Some (i, {| topic := sel_topic s; frequency := "instant";
                                last_sent := ls |}))
  /\ (forall j n1, ns1 !! j = Some n1 ->
        exists n2, B !! j = Some n2 /\ restamped sels n1 n2)
  /\ length B = length ns1.

(** No datetime occurs in the value: what [json.dump] can write. *)
Fixpoint serializable (v : pyval) : bool :=
  match v with
  | PyNone | PyStr _ => true
  | PyDatetime _ => false
  | PyList items => forallb serializable items
  | PyDict items => forallb (fun kv => serializable kv.2) items
  end.

(** Induction on Python values, through the lists and dicts. *)
Section PyvalInduction.

Variable P : pyval -> Prop.
Hypothesis HNone : P PyNone.
Hypothesis HStr : forall s, P (PyStr s).
Hypothesis HDatetime : forall t, P (PyDatetime t).
Hypothesis HList : forall items, Forall P items -> P (PyList items).
Hypothesis HDict : forall items, Forall (fun kv => P kv.2) items -> P (PyDict items).

Fixpoint pyval_induction (v : pyval) : P v :=
  match v with
  | PyNone => HNone
  | PyStr s => HStr s
  | PyDatetime t => HDatetime t
  | PyList items =>
      HList items
        ((fix all (l : list pyval) : Forall P l :=
            match l with
            | [] => Forall_nil_2 P
            | x :: r => Forall_cons_2 P x r (pyval_induction x) (all r)
            end) items)
  | PyDict items =>
      HDict items
        ((fix all (l : list (string * pyval)) : Forall (fun kv => P kv.2) l :=
            match l with
            | [] => Forall_nil_2 _
            | kv :: r => Forall_cons_2 _ kv r (pyval_induction kv.2) (all r)
            end) items)
  end.

End PyvalInduction.

(** ** The rest of the application *)

(** The [last_sent] of the record the enumerate loop finds for [t], absent
    when it finds none: what [n.get("last_sent")] or the [None] of the new
    record evaluates to. *)
Definition previous_last_sent (t : string) (ns : list Notification) : option Z :=
  match first_with_topic t 0 ns with
  | Some (_, n) => last_sent n
  | None => None
  end.

(** *** Removing a recipient (lines 222-232) *)

(** The enumerate loop over the recipients up to the first Remove button
    that was clicked ([clicked i] is the button with key remove_{i}). *)
Fixpoint first_clicked (clicked : nat -> bool) (i : nat) (rs : list Recipient)
  : option nat :=
  match rs with
  | [] => None
  | _ :: rest => if clicked i then Some i else first_clicked clicked (S i) rest
  end.

(** [recipients.pop(i)], [save_data], [st.rerun()].  The outcome is
    [Ok true] when the run ends in the rerun, [Ok false] when no button was
    clicked, and the exception of [save_data], which nothing catches. *)
Definition remove_recipient (clicked : nat -> bool) (ss : SessionState)
    (file : DataFile) : SessionState * DataFile * Py bool :=
  match first_clicked clicked 0 (ss_recipients ss) with
  | None => (ss, file, Ok false)
  | Some i =>
      let ss' := {| ss_recipients := delete i (ss_recipients ss);
                    ss_topics := ss_topics ss |} in
      match save_data (recipients_value (ss_recipients ss'))
                      (topics_value (ss_topics ss')) with
      | (file', Ok _) => (ss', file', Ok true)
      | (file', Raise e) => (ss', file', Raise e)
      end
  end.

(** *** The Notifications tab (lines 258-340) *)

(** [recipient_emails.index(selected_recipient)] and the recipient at that
    position: the first recipient with the address. *)
Fixpoint find_recipient (e : string) (i : nat) (rs : list Recipient)
  : option (nat * Recipient) :=
  match rs with
  | [] => None
  | r :: rest =>
      if String.eqb (email r) e then Some (i, r)
      else find_recipient e (S i) rest
  end.

(** [recipient["topics"] = ...] and [recipient["notifications"] = ...]. *)
Definition set_topics (ts : list string) (r : Recipient) : Recipient :=
  {| email := email r; topics := ts; notifications := notifications r |}.

Definition set_notifications (ns : list Notification) (r : Recipient) : Recipient :=
  {| email := email r; topics := topics r; notifications := ns |}.

(** One run of the tab.  [choice] is the position picked in the recipient
    selectbox, whose value is the address at that position; [sels] are the
    iterations over the selected topics; [update_topics] and [save_settings]
    are the two buttons.  The result is the session state, the file, the
    messages sent, and how the run ended (an exception of [save_data] is not
    caught and ends it). *)
Definition notifications_tab (config : option EmailConfig) (choice : nat)
    (update_topics : bool) (sels : list Selection) (save_settings : bool)
    (ss : SessionState) (file : DataFile) (outbox : list Email)
  : SessionState * DataFile * list Email * Py unit :=
  match (email <$> ss_recipients ss) !! choice with
  | None => (ss, file, outbox, Ok tt)          (* no recipient to select *)
  | Some selected_recipient =>
      if String.eqb selected_recipient "" then (ss, file, outbox, Ok tt)
      else
        match find_recipient selected_recipient 0 (ss_recipients ss) with
        | None => (ss, file, outbox, Ok tt)    (* index() of a listed address *)
        | Some (recipient_idx, recipient) =>
            let rs1 :=
              if update_topics
              then alter (set_topics (sel_topic <$> sels)) recipient_idx
                         (ss_recipients ss)
              else ss_recipients ss in
            let saved1 :=
              if update_topics
              then save_data (recipients_value rs1) (topics_value (ss_topics ss))
              else (file, Ok tt) in
            match saved1.2 with
            | Raise e =>
                ({| ss_recipients := rs1; ss_topics := ss_topics ss |},
                 saved1.1, outbox, Raise e)
            | Ok _ =>
                match notification_schedule config selected_recipient
                        (notifications recipient, outbox) sels with
                | Raise e =>
                    ({| ss_recipients := rs1; ss_topics := ss_topics ss |},
                     saved1.1, outbox, Raise e)
                | Ok (ns, outbox') =>
                    let rs2 := alter (set_notifications ns) recipient_idx rs1 in
                    let saved2 :=
                      if save_settings
                      then save_data (recipients_value rs2)
                                     (topics_value (ss_topics ss))
                      else (saved1.1, Ok tt) in
                    ({| ss_recipients := rs2; ss_topics := ss_topics ss |},
                     saved2.1, outbox', saved2.2)
                end
            end
        end
  end.

(** *** Topics from the sheet (lines 39-113, 244-255) *)

(** [sep in s] and [s.split(sep)] for a separator that is not empty: the
    pieces between the occurrences of [sep] found from left to right.  The
    fuel is the length of the string, one more than the cuts it can take. *)
Definition str_contains (sep s : string) : bool :=
  match index 0 sep s with
  | Some _ => true
  | None => false
  end.

Fixpoint split_fuel (fuel : nat) (sep s : string) : list string :=
  match fuel with
  | O => [s]
  | S k =>
      match index 0 sep s with
      | None => [s]
      | Some i =>
          substring 0 i s ::
          split_fuel k sep
            (substring (i + String.length sep)
                       (String.length s - (i + String.length sep)) s)
      end
  end.

Definition str_split (sep s : string) : list string :=
  split_fuel (S (String.length s)) sep s.

(** Lines 71-74: the spreadsheet id of a URL, or the input itself.  [None]
    stands for the IndexError of [...[1]] or [...[0]]. *)
Definition sheet_id_of (sheet_url : string) : option string :=
  if str_contains "spreadsheets/d/" sheet_url then
    part ← str_split "spreadsheets/d/" sheet_url !! 1%nat;
    str_split "/" part !! 0%nat
  else Some sheet_url.

(** [pd.DataFrame(rows, columns=header)] on lists of strings: the rows are
    filled with missing values up to the longest one, whose length must be
    the number of columns ([None]: the ValueError otherwise); no rows give an
    empty frame. *)
Definition max_width (rows : list (list string)) : nat :=
  foldr (fun row w => Nat.max (length row) w) 0%nat rows.

Definition pad_row (w : nat) (row : list string) : list (option string) :=
  (Some <$> row) ++ replicate (w - length row)%nat None.

Definition DataFrame (rows : list (list string)) (columns : list string)
  : option (list (list (option string))) :=
  match rows with
  | [] => Some []
  | _ :: _ =>
      if Nat.eqb (max_width rows) (length columns)
      then Some (pad_row (length columns) <$> rows)
      else None
  end.

(** [df.iloc[:, k]] for [k] below the number of columns, and [dropna()]. *)
Definition iloc_column (k : nat) (df : list (list (option string)))
  : list (option string) :=
  (fun row => default None (row !! k)) <$> df.

Definition dropna (column : list (option string)) : list string :=
  omap id column.

(** [unique()]: the values in the order in which they first appear. *)
Fixpoint unique_from (seen : list string) (l : list string) : list string :=
  match l with
  | [] => []
  | x :: rest =>
      if bool_decide (x ∈ seen) then unique_from seen rest
      else x :: unique_from (x :: seen) rest
  end.

Definition unique (l : list string) : list string := unique_from [] l.

(** Lines 89-108, from the values of the sheet to the topics. *)
Definition topics_of_sheet (data : list (list string)) : list string :=
  match data with
  | [] => []                            (* "The sheet appears to be empty" *)
  | header :: rows =>
      match DataFrame rows header with
      | None => []                      (* caught at line 110 *)
      | Some df =>
          if (length header <? 3)%nat then []
          else unique (dropna (iloc_column 2 df))
      end
  end.

Section Sheets.

(** Credentials, authorization, [open_by_key(sheet_id).sheet1] and
    [get_all_values()]: the values of the first worksheet, [None] when one
    of them raises. *)
Variable fetch : string -> option (list (list string)).

(** Every exception ends in [return []]. *)
Definition load_topics_from_sheets (sheet_url : string) : list string :=
  match sheet_id_of sheet_url with
  | None => []
  | Some sheet_id =>
      match fetch sheet_id with
      | None => []
      | Some data => topics_of_sheet data
      end
  end.

(** The Load Topics button (lines 244-250): an empty list is falsy. *)
Definition load_topics (clicked : bool) (sheets_input : string)
    (ss : SessionState) (file : DataFile)
  : SessionState * DataFile * Py unit :=
  if clicked && negb (String.eqb sheets_input "") then
    match load_topics_from_sheets sheets_input with
    | [] => (ss, file, Ok tt)
    | t :: ts =>
        let saved := save_data (recipients_value (ss_recipients ss))
                               (topics_value (t :: ts)) in
        ({| ss_recipients := ss_recipients ss; ss_topics := t :: ts |},
         saved.1, saved.2)
    end
  else (ss, file, Ok tt).

End Sheets.

(** * Properties *)

Open Scope nat_scope.

(** ** The enumerate loop *)

Lemma first_with_topic_None (t : string) (k : nat) (ns : list Notification) :
  first_with_topic t k ns = None <-> Forall (fun n => topic n <> t) ns.
Proof.
  revert k; induction ns as [|n ns IH]; intros k; simpl.
  - split; [constructor | reflexivity].
  - destruct (String.eqb_spec (topic n) t) as [E|E].
    + split; [discriminate|]. intros H; inversion H; contradiction.
    + rewrite IH. split; [now constructor|]. intros H; now inversion H.
Qed.

Lemma first_with_topic_Some (t : string) (k : nat) (ns : list Notification)
    (i : nat) (n : Notification) :
  first_with_topic t k ns = Some (i, n) <->
  exists j, i = k + j /\ ns !! j = Some n /\ topic n = t /\
            Forall (fun m => topic m <> t) (take j ns).
Proof.
  revert k; induction ns as [|m ns IH]; intros k; simpl.
  - split; [discriminate|]. intros (j & _ & H & _). now rewrite lookup_nil in H.
  - destruct (String.eqb_spec (topic m) t) as [E|E].
    + split.
      * intros [= <- <-]. exists 0. repeat split; auto with lia.
      * intros (j & -> & Hj & Ht & Hpre). destruct j as [|j].
        -- simpl in Hj. injection Hj as ->. f_equal. f_equal. lia.
        -- simpl in Hpre. inversion Hpre; contradiction.
    + rewrite IH. split.
      * intros (j & -> & Hj & Ht & Hpre). exists (S j).
        repeat split; auto with lia. simpl. now constructor.
      * intros (j & -> & Hj & Ht & Hpre). destruct j as [|j].
        -- simpl in Hj. injection Hj as ->. contradiction.
        -- exists j. simpl in Hpre. inversion Hpre; subst.
           repeat split; auto with lia.
Qed.

(** The position found lies inside the list. *)
Lemma first_with_topic_lookup (t : string) (ns : list Notification)
    (i : nat) (n : Notification) :
  first_with_topic t 0 ns = Some (i, n) ->
  ns !! i = Some n /\ topic n = t /\ Forall (fun m => topic m <> t) (take i ns).
Proof.
  intros H. apply first_with_topic_Some in H as (j & -> & ? & ? & ?). auto.
Qed.

(** ** One update *)

Lemma merge_step_found (ns : list Notification) (t f : string) (now : Z)
    (i : nat) (n : Notification) :
  first_with_topic t 0 ns = Some (i, n) ->
  merge_step ns t f now =
  Ok (<[i := {| topic := t; frequency := f;
                last_sent := stamped f now (last_sent n) |}]> ns).
Proof. intros H. unfold merge_step. now rewrite H. Qed.

Lemma merge_step_fresh (ns : list Notification) (t f : string) (now : Z) :
  first_with_topic t 0 ns = None ->
  merge_step ns t f now =
  Ok (ns ++ [{| topic := t; frequency := f; last_sent := stamped f now None |}]).
Proof. intros H. unfold merge_step. now rewrite H. Qed.

(** C1. One merge step: when a record for [t] exists (the first one, at
    position [i]), it is replaced in place by the record with frequency [f]
    whose [last_sent] is the current time for instant and the old value
    otherwise; when none exists, the record (t, f) is appended, with
    [last_sent] the current time for instant and absent otherwise. *)
Theorem merge_step_spec (ns : list Notification) (t f : string) (now : Z) :
  (forall i n,
      ns !! i = Some n -> topic n = t ->
      Forall (fun m => topic m <> t) (take i ns) ->
      merge_step ns t f now =
      Ok (<[i := {| topic := t; frequency := f;
                    last_sent := if String.eqb f "instant" then Some now
                                 else last_sent n |}]> ns))
  /\
  (Forall (fun m => topic m <> t) ns ->
   merge_step ns t f now =
   Ok (ns ++ [{| topic := t; frequency := f;
                 last_sent := if String.eqb f "instant" then Some now
                              else None |}])).
Proof.
  split.
  - intros i n Hi Ht Hpre.
    apply merge_step_found, first_with_topic_Some. exists i. auto.
  - intros Hnone. now apply merge_step_fresh, first_with_topic_None.
Qed.

Lemma merge_step_spec_witness :
  let ns := [ {| topic := "billing"; frequency := "daily"; last_sent := None |};
              {| topic := "security"; frequency := "weekly"; last_sent := Some 5%Z |} ] in
  merge_step ns "security" "instant" 100%Z =
    Ok [ {| topic := "billing"; frequency := "daily"; last_sent := None |};
         {| topic := "security"; frequency := "instant"; last_sent := Some 100%Z |} ]
  /\ merge_step ns "news" "daily" 100%Z =
    Ok (ns ++ [ {| topic := "news"; frequency := "daily"; last_sent := None |} ]).
Proof.
  intros ns. split.
  - apply (proj1 (merge_step_spec ns "security" "instant" 100%Z) 1 _ eq_refl eq_refl).
    repeat constructor; discriminate.
  - apply (proj2 (merge_step_spec ns "news" "daily" 100%Z)).
    repeat constructor; discriminate.
Defined.

(** [merge_step] always returns: nothing in it can raise. *)
Lemma merge_step_total (ns : list Notification) (t f : string) (now : Z) :
  exists ns', merge_step ns t f now = Ok ns'.
Proof.
  destruct (first_with_topic t 0 ns) as [[i n]|] eqn:E.
  - eexists. exact (merge_step_found _ _ _ _ _ _ E).
  - eexists. exact (merge_step_fresh _ _ _ _ E).
Qed.

(** The two shapes of the result, by what the enumerate loop found. *)
Lemma merge_step_cases (ns ns' : list Notification) (t f : string) (now : Z) :
  merge_step ns t f now = Ok ns' ->
  (exists i n, first_with_topic t 0 ns = Some (i, n) /\
     ns' = <[i := {| topic := t; frequency := f;
                     last_sent := stamped f now (last_sent n) |}]> ns)
  \/ (first_with_topic t 0 ns = None /\
      ns' = ns ++ [{| topic := t; frequency := f; last_sent := stamped f now None |}]).
Proof.
  intros H. destruct (first_with_topic t 0 ns) as [[i n]|] eqn:E.
  - left. exists i, n. split; [reflexivity|].
    rewrite (merge_step_found _ _ _ _ _ _ E) in H. now injection H.
  - right. split; [reflexivity|].
    rewrite (merge_step_fresh _ _ _ _ E) in H. now injection H.
Qed.

(** The topics of the records, in order: unchanged by an update in place,
    extended by the new topic otherwise. *)
Lemma merge_step_topics (ns ns' : list Notification) (t f : string) (now : Z) :
  merge_step ns t f now = Ok ns' ->
  (topic <$> ns' = topic <$> ns /\ t ∈ (topic <$> ns))
  \/ (topic <$> ns' = (topic <$> ns) ++ [t] /\ t ∉ (topic <$> ns)).
Proof.
  intros H. apply merge_step_cases in H as [(i & n & E & ->)|(E & ->)].
  - left. apply first_with_topic_lookup in E as (Hi & Ht & _). split.
    + rewrite list_fmap_insert. simpl. apply list_insert_id.
      rewrite list_lookup_fmap, Hi. simpl. now rewrite Ht.
    + apply list_elem_of_fmap. exists n. split; [easy|].
      apply list_elem_of_lookup. eauto.
  - right. apply first_with_topic_None in E. split.
    + now rewrite fmap_app.
    + intros (n & -> & Hn)%list_elem_of_fmap.
      rewrite Forall_forall in E. exact (E n Hn eq_refl).
Qed.

(** What an update does to the record at a given position. *)
Lemma merge_step_lookup (ns ns' : list Notification) (t f : string) (now : Z)
    (j : nat) (n : Notification) :
  merge_step ns t f now = Ok ns' ->
  ns !! j = Some n ->
  ns' !! j = Some n
  \/ (first_with_topic t 0 ns = Some (j, n) /\
      ns' !! j = Some {| topic := t; frequency := f;
                         last_sent := stamped f now (last_sent n) |}).
Proof.
  intros H Hj. apply merge_step_cases in H as [(i & m & E & ->)|(E & ->)].
  - destruct (decide (i = j)) as [->|Hne].
    + right. pose proof (first_with_topic_lookup _ _ _ _ E) as (Hm & _).
      assert (m = n) as -> by congruence. split; [assumption|].
      apply list_lookup_insert_eq. now apply lookup_lt_Some with n.
    + left. now rewrite list_lookup_insert_ne.
  - left. now apply lookup_app_l_Some.
Qed.

(** ** The loop *)

Lemma schedule_topic_eq (config : option EmailConfig) (r : string)
    (ns : list Notification) (outbox : list Email) (s : Selection) :
  schedule_topic config r (ns, outbox) s =
  ns' ← merge_step ns (sel_topic s) (sel_frequency s) (sel_now s);
  Ok (ns', outbox ++ sent_in config r s).
Proof.
  unfold schedule_topic, sent_in. simpl.
  destruct (merge_step_total ns (sel_topic s) (sel_frequency s) (sel_now s))
    as [ns' ->]. simpl.
  destruct (String.eqb (sel_frequency s) "instant" && sel_send_now s).
  - destruct config; [reflexivity|]. now rewrite app_nil_r.
  - now rewrite app_nil_r.
Qed.

Lemma notification_schedule_app (config : option EmailConfig) (r : string)
    (st : list Notification * list Email) (sels1 sels2 : list Selection) :
  notification_schedule config r st (sels1 ++ sels2) =
  st' ← notification_schedule config r st sels1;
  notification_schedule config r st' sels2.
Proof.
  revert st; induction sels1 as [|s sels1 IH]; intros st; simpl.
  - reflexivity.
  - destruct (schedule_topic config r st s) as [st'|e]; simpl; [apply IH|reflexivity].
Qed.

(** A session of reruns is the loop over all its iterations in order. *)
Lemma reruns_concat (config : option EmailConfig) (r : string)
    (st : list Notification * list Email) (runs : list (list Selection)) :
  reruns config r st runs = notification_schedule config r st (concat runs).
Proof.
  revert st; induction runs as [|sels runs IH]; intros st; simpl.
  - reflexivity.
  - rewrite notification_schedule_app.
    destruct (notification_schedule config r st sels) as [st'|e]; simpl;
      [apply IH|reflexivity].
Qed.

(** The loop always returns. *)
Lemma notification_schedule_total (config : option EmailConfig) (r : string)
    (st : list Notification * list Email) (sels : list Selection) :
  exists st', notification_schedule config r st sels = Ok st'.
Proof.
  revert st; induction sels as [|s sels IH]; intros [ns outbox]; simpl.
  - eauto.
  - rewrite schedule_topic_eq.
    destruct (merge_step_total ns (sel_topic s) (sel_frequency s) (sel_now s))
      as [ns' ->]. simpl. apply IH.
Qed.

(** A property of the notification list kept by every update is kept by the
    loop. *)
Lemma notification_schedule_invariant (P : list Notification -> Prop) :
  (forall ns t f now ns', merge_step ns t f now = Ok ns' -> P ns -> P ns') ->
  forall config r sels st st',
    notification_schedule config r st sels = Ok st' -> P st.1 -> P st'.1.
Proof.
  intros Hstep config r sels.
  induction sels as [|s sels IH]; intros [ns outbox] st'; simpl.
  - now intros [= <-].
  - rewrite schedule_topic_eq.
    destruct (merge_step ns (sel_topic s) (sel_frequency s) (sel_now s))
      as [ns1|e] eqn:E; simpl; [|discriminate].
    intros Hrun HP. apply (IH _ _ Hrun). simpl. eapply Hstep; eauto.
Qed.

(** The notification list computed by the loop is the one [merge] computes,
    whatever the sender configuration, the recipient and the clicks. *)
Lemma notification_schedule_merge (config : option EmailConfig) (r : string)
    (ns : list Notification) (outbox : list Email) (sels : list Selection) :
  fst <$> notification_schedule config r (ns, outbox) sels = merge ns sels.
Proof.
  revert ns outbox; induction sels as [|s sels IH]; intros ns outbox; simpl.
  - reflexivity.
  - rewrite schedule_topic_eq.
    destruct (merge_step ns (sel_topic s) (sel_frequency s) (sel_now s))
      as [ns'|e]; simpl; [apply IH|reflexivity].
Qed.

(** ** Uniqueness of topics *)

Lemma merge_step_NoDup (ns ns' : list Notification) (t f : string) (now : Z) :
  merge_step ns t f now = Ok ns' ->
  NoDup (topic <$> ns) -> NoDup (topic <$> ns').
Proof.
  intros H Hnd. apply merge_step_topics in H as [[-> _]|[-> Hfresh]].
  - assumption.
  - apply NoDup_app. split; [assumption|]. split.
    + intros x Hx ->%list_elem_of_singleton. contradiction.
    + apply NoDup_singleton.
Qed.

(** C4. A recipient whose records have pairwise different topics keeps that
    through every session: after any sequence of runs of the notification
    schedule (each run any list of selected topics, frequencies and clock
    readings) no two records share a topic. *)
Theorem notifications_unique (config : option EmailConfig) (r : string)
    (ns : list Notification) (outbox : list Email) (runs : list (list Selection)) :
  NoDup (topic <$> ns) ->
  exists ns' outbox',
    reruns config r (ns, outbox) runs = Ok (ns', outbox') /\
    NoDup (topic <$> ns').
Proof.
  intros Hnd. rewrite reruns_concat.
  destruct (notification_schedule_total config r (ns, outbox) (concat runs))
    as [[ns' outbox'] Hrun].
  exists ns', outbox'. split; [assumption|].
  apply (notification_schedule_invariant (fun l => NoDup (topic <$> l)))
    with (config := config) (r := r) (sels := concat runs) (st := (ns, outbox))
         (st' := (ns', outbox')) in Hnd; [assumption| |assumption].
  intros ns0 t f now ns1. apply merge_step_NoDup.
Qed.

Lemma notifications_unique_witness :
  let ns := [ {| topic := "billing"; frequency := "daily"; last_sent := None |};
              {| topic := "news"; frequency := "instant"; last_sent := Some 5%Z |} ] in
  NoDup (topic <$> ns) /\
  exists ns' outbox',
    reruns None "r@x.com" (ns, [])
      [ [ selection_of "daily" 10%Z (fun _ => false) "billing" ];
        [ selection_of "weekly" 20%Z (fun _ => false) "billing";
          selection_of "instant" 20%Z (fun _ => false) "security" ] ]
    = Ok (ns', outbox') /\
    NoDup (topic <$> ns').
Proof.
  intros ns.
  assert (Hnd : NoDup (topic <$> ns)).
  { simpl. apply NoDup_cons. split; [|apply NoDup_singleton].
    intros H. apply list_elem_of_singleton in H. discriminate H. }
  split; [exact Hnd|].
  apply (notifications_unique None "r@x.com" ns [] _ Hnd).
Defined.

(** ** Records of topics that are not selected *)

(** C8. A run of the notification schedule leaves every record whose topic
    is not among the selected ones where it is and as it is: the same record
    is found at the same position afterwards. *)
Theorem unselected_untouched (config : option EmailConfig) (r : string)
    (ns : list Notification) (outbox : list Email) (sels : list Selection) :
  exists ns' outbox',
    notification_schedule config r (ns, outbox) sels = Ok (ns', outbox') /\
    forall j n,
      ns !! j = Some n -> topic n ∉ (sel_topic <$> sels) -> ns' !! j = Some n.
Proof.
  revert ns outbox; induction sels as [|s sels IH]; intros ns outbox.
  - exists ns, outbox. simpl. auto.
  - simpl. rewrite schedule_topic_eq.
    destruct (merge_step ns (sel_topic s) (sel_frequency s) (sel_now s))
      as [ns1|e] eqn:E; simpl.
    2:{ destruct (merge_step_total ns (sel_topic s) (sel_frequency s) (sel_now s))
          as [? ?]; congruence. }
    destruct (IH ns1 (outbox ++ sent_in config r s)) as (ns' & outbox' & Hrun & Hframe).
    exists ns', outbox'. split; [assumption|].
    intros j n Hj Hnot. apply Hframe.
    + destruct (merge_step_lookup _ _ _ _ _ _ _ E Hj) as [Hsame|[Hfirst _]].
      * assumption.
      * apply first_with_topic_lookup in Hfirst as (_ & Ht & _).
        exfalso. apply Hnot. rewrite Ht. simpl. apply list_elem_of_here.
    + intros Hin. apply Hnot. simpl. now apply list_elem_of_further.
Qed.

Lemma unselected_untouched_witness :
  let old := {| topic := "billing"; frequency := "daily"; last_sent := Some 3%Z |} in
  exists ns' outbox',
    notification_schedule None "r@x.com" ([old], [])
      [ selection_of "instant" 20%Z (fun _ => true) "security" ]
    = Ok (ns', outbox') /\
    ns' !! 0 = Some old.
Proof.
  intros old.
  destruct (unselected_untouched None "r@x.com" [old] []
              [ selection_of "instant" 20%Z (fun _ => true) "security" ])
    as (ns' & outbox' & Hrun & Hframe).
  exists ns', outbox'. split; [exact Hrun|].
  apply Hframe; [reflexivity|].
  simpl. intros H. apply list_elem_of_singleton in H. discriminate H.
Defined.

(** ** Monotonicity of last_sent *)

Lemma last_sent_le_refl (a : option Z) : last_sent_le a a.
Proof. destruct a; simpl; [lia|exact I]. Qed.

Lemma last_sent_le_trans (a b c : option Z) :
  last_sent_le a b -> last_sent_le b c -> last_sent_le a c.
Proof. destruct a, b, c; simpl; try tauto; lia. Qed.

(** A stamp is never earlier than the value it replaces, when that value is
    not later than the clock. *)
Lemma stamped_le (f : string) (now : Z) (old : option Z) :
  last_sent_le old (Some now) -> last_sent_le old (stamped f now old).
Proof.
  intros H. unfold stamped. destruct (String.eqb f "instant");
    [assumption|apply last_sent_le_refl].
Qed.

Lemma merge_step_monotone (ns ns' : list Notification) (t f : string) (now : Z) :
  merge_step ns t f now = Ok ns' ->
  (forall n, n ∈ ns -> last_sent_le (last_sent n) (Some now)) ->
  forall j n1, ns !! j = Some n1 ->
    exists n2, ns' !! j = Some n2 /\ topic n2 = topic n1 /\
               last_sent_le (last_sent n1) (last_sent n2).
Proof.
  intros H Hb j n1 Hj.
  destruct (merge_step_lookup _ _ _ _ _ _ _ H Hj) as [Hsame|[Hfirst Hnew]].
  - exists n1. auto using last_sent_le_refl.
  - eexists. split; [exact Hnew|]. simpl.
    apply first_with_topic_lookup in Hfirst as (_ & Ht & _). split; [now rewrite Ht|].
    apply stamped_le, Hb. apply list_elem_of_lookup. eauto.
Qed.

Lemma merge_step_bounded (ns ns' : list Notification) (t f : string) (now T : Z) :
  merge_step ns t f now = Ok ns' ->
  (now <= T)%Z ->
  (forall n, n ∈ ns -> last_sent_le (last_sent n) (Some T)) ->
  forall n, n ∈ ns' -> last_sent_le (last_sent n) (Some T).
Proof.
  intros H Hnow Hb n Hn.
  assert (Hnew : forall old, last_sent_le old (Some T) ->
                             last_sent_le (stamped f now old) (Some T)).
  { intros old Hold. unfold stamped.
    destruct (String.eqb f "instant"); [exact Hnow|exact Hold]. }
  apply merge_step_cases in H as [(i & m & E & ->)|(E & ->)].
  - apply list_elem_of_lookup in Hn as [j Hj].
    apply first_with_topic_lookup in E as (Hi & _ & _).
    destruct (decide (i = j)) as [->|Hne].
    + rewrite list_lookup_insert_eq in Hj by (now apply lookup_lt_Some with m).
      injection Hj as <-. simpl. apply Hnew, Hb, list_elem_of_lookup. eauto.
    + rewrite list_lookup_insert_ne in Hj by assumption.
      apply Hb, list_elem_of_lookup. eauto.
  - apply elem_of_app in Hn as [Hn|Hn%list_elem_of_singleton].
    + now apply Hb.
    + subst n. simpl. now apply Hnew.
Qed.

(** The loop under a non-decreasing clock: every record keeps its position
    and topic, its [last_sent] does not go back, and a bound on the clock
    readings that bounded the stored times still bounds them. *)
Lemma notification_schedule_monotone (config : option EmailConfig) (r : string)
    (sels : list Selection) (ns : list Notification) (outbox : list Email) :
  StronglySorted Z.le (sel_now <$> sels) ->
  (forall n s, n ∈ ns -> s ∈ sels -> last_sent_le (last_sent n) (Some (sel_now s))) ->
  exists ns' outbox',
    notification_schedule config r (ns, outbox) sels = Ok (ns', outbox') /\
    (forall j n1, ns !! j = Some n1 ->
       exists n2, ns' !! j = Some n2 /\ topic n2 = topic n1 /\
                  last_sent_le (last_sent n1) (last_sent n2)) /\
    (forall T, (forall s, s ∈ sels -> (sel_now s <= T)%Z) ->
               (forall n, n ∈ ns -> last_sent_le (last_sent n) (Some T)) ->
               forall n, n ∈ ns' -> last_sent_le (last_sent n) (Some T)).
Proof.
  revert ns outbox; induction sels as [|s sels IH]; intros ns outbox Hsorted Hb.
  - exists ns, outbox. simpl. split; [reflexivity|]. split; [|auto].
    intros j n1 Hj. exists n1. auto using last_sent_le_refl.
  - simpl in Hsorted. apply StronglySorted_inv in Hsorted as [Hsorted Hhead].
    simpl. rewrite schedule_topic_eq.
    destruct (merge_step ns (sel_topic s) (sel_frequency s) (sel_now s))
      as [ns1|e] eqn:E; simpl.
    2:{ destruct (merge_step_total ns (sel_topic s) (sel_frequency s) (sel_now s))
          as [? ?]; congruence. }
    assert (Hb1 : forall n s', n ∈ ns1 -> s' ∈ sels ->
                    last_sent_le (last_sent n) (Some (sel_now s'))).
    { intros n s' Hn Hs'. apply (merge_step_bounded _ _ _ _ _ _ E); [| |exact Hn].
      - rewrite Forall_forall in Hhead. apply Hhead.
        apply list_elem_of_fmap. eauto.
      - intros m Hm. apply Hb; [exact Hm|now apply list_elem_of_further]. }
    destruct (IH ns1 (outbox ++ sent_in config r s) Hsorted Hb1)
      as (ns' & outbox' & Hrun & Hmono & Hbound).
    exists ns', outbox'. split; [exact Hrun|]. split.
    + intros j n1 Hj.
      destruct (merge_step_monotone _ _ _ _ _ E) with (j := j) (n1 := n1)
        as (n2 & Hj2 & Ht2 & Hle2); [|exact Hj|].
      { intros n Hn. apply Hb; [exact Hn|apply list_elem_of_here]. }
      destruct (Hmono j n2 Hj2) as (n3 & Hj3 & Ht3 & Hle3).
      exists n3. split; [exact Hj3|]. split; [congruence|].
      eapply last_sent_le_trans; eassumption.
    + intros T HT HbT n Hn. apply (Hbound T); [| |exact Hn].
      * intros s' Hs'. apply HT. now apply list_elem_of_further.
      * apply (merge_step_bounded _ _ _ _ _ _ E); [|exact HbT].
        apply HT. apply list_elem_of_here.
Qed.

(** C7. Along a session whose clock readings never decrease, and whose
    stored times were read from that clock (none is later than a reading
    still to come), [last_sent] never goes back: between any two moments of
    the session (after the runs [runs1], and after [runs2] more) every record
    is still at its position with its topic, and its [last_sent] is the same
    or later; an absent [last_sent] counts as earlier than any time. *)
Theorem last_sent_monotone (config : option EmailConfig) (r : string)
    (ns : list Notification) (outbox : list Email)
    (runs1 runs2 : list (list Selection)) :
  StronglySorted Z.le (sel_now <$> concat (runs1 ++ runs2)) ->
  (forall n s, n ∈ ns -> s ∈ concat (runs1 ++ runs2) ->
               last_sent_le (last_sent n) (Some (sel_now s))) ->
  exists st1 st2,
    reruns config r (ns, outbox) runs1 = Ok st1 /\
    reruns config r st1 runs2 = Ok st2 /\
    forall j n1, st1.1 !! j = Some n1 ->
      exists n2, st2.1 !! j = Some n2 /\ topic n2 = topic n1 /\
                 last_sent_le (last_sent n1) (last_sent n2).
Proof.
  rewrite concat_app, fmap_app. intros Hsorted Hb.
  apply StronglySorted_app in Hsorted as (Hcross & Hs1 & Hs2).
  destruct (notification_schedule_monotone config r (concat runs1) ns outbox Hs1)
    as (ns1 & outbox1 & Hrun1 & _ & Hbound1).
  { intros n s Hn Hs. apply Hb; [exact Hn|]. apply elem_of_app. now left. }
  destruct (notification_schedule_monotone config r (concat runs2) ns1 outbox1 Hs2)
    as (ns2 & outbox2 & Hrun2 & Hmono2 & _).
  { intros n s Hn Hs. apply (Hbound1 (sel_now s)); [| |exact Hn].
    - intros s1 Hs1'. apply Hcross; apply list_elem_of_fmap; eauto.
    - intros m Hm. apply Hb; [exact Hm|]. apply elem_of_app. now right. }
  exists (ns1, outbox1), (ns2, outbox2).
  rewrite !reruns_concat. auto.
Qed.

Lemma last_sent_monotone_witness :
  let ns := [ {| topic := "security"; frequency := "daily"; last_sent := Some 5%Z |} ] in
  let runs1 := [ [ selection_of "instant" 10%Z (fun _ => false) "security" ] ] in
  let runs2 := [ [ selection_of "daily" 20%Z (fun _ => false) "security" ];
                 [ selection_of "instant" 30%Z (fun _ => false) "security" ] ] in
  exists st1 st2,
    reruns None "r@x.com" (ns, []) runs1 = Ok st1 /\
    reruns None "r@x.com" st1 runs2 = Ok st2 /\
    forall j n1, st1.1 !! j = Some n1 ->
      exists n2, st2.1 !! j = Some n2 /\ topic n2 = topic n1 /\
                 last_sent_le (last_sent n1) (last_sent n2).
Proof.
  intros ns runs1 runs2.
  apply (last_sent_monotone None "r@x.com" ns [] runs1 runs2).
  - simpl. repeat constructor; lia.
  - intros n s Hn Hs. apply list_elem_of_singleton in Hn. subst n.
    simpl in Hs. repeat (apply elem_of_cons in Hs as [->|Hs]); simpl; try lia.
    apply elem_of_nil in Hs. destruct Hs.
Defined.

(** ** Merging the same selection again *)

Lemma first_with_topic_insert_other (t : string) (m : Notification) :
  topic m <> t ->
  forall (ns : list Notification) (k i : nat),
    (forall n', ns !! i = Some n' -> topic n' <> t) ->
    first_with_topic t k (<[i := m]> ns) = first_with_topic t k ns.
Proof.
  intros Hm. induction ns as [|n ns IH]; intros k i Hi; [reflexivity|].
  destruct i as [|i]; simpl.
  - destruct (String.eqb_spec (topic m) t) as [E|_]; [contradiction|].
    destruct (String.eqb_spec (topic n) t) as [E|_]; [|reflexivity].
    exfalso. now apply (Hi n).
  - destruct (String.eqb (topic n) t); [reflexivity|]. apply IH. exact Hi.
Qed.

Lemma first_with_topic_app_other (t : string) (m : Notification) :
  topic m <> t ->
  forall (ns : list Notification) (k : nat),
    first_with_topic t k (ns ++ [m]) = first_with_topic t k ns.
Proof.
  intros Hm. induction ns as [|n ns IH]; intros k; simpl.
  - now destruct (String.eqb_spec (topic m) t).
  - destruct (String.eqb (topic n) t); [reflexivity|apply IH].
Qed.

(** An update for another topic does not move the first record of [t]. *)
Lemma merge_step_first_other (ns ns' : list Notification) (t' t f : string) (now : Z) :
  merge_step ns t' f now = Ok ns' -> t' <> t ->
  first_with_topic t 0 ns' = first_with_topic t 0 ns.
Proof.
  intros H Hne. apply merge_step_cases in H as [(i & n & E & ->)|(E & ->)].
  - apply first_with_topic_lookup in E as (Hi & Ht & _).
    apply first_with_topic_insert_other; [exact Hne|].
    intros n' Hn'. congruence.
  - now apply first_with_topic_app_other.
Qed.

(** After an update for [t], the first record of [t] is the one written. *)
Lemma merge_step_first_same (ns ns' : list Notification) (t f : string) (now : Z) :
  merge_step ns t f now = Ok ns' ->
  exists i old,
    first_with_topic t 0 ns' =
      Some (i, {| topic := t; frequency := f; last_sent := stamped f now old |}) /\
    (first_with_topic t 0 ns = None \/ exists n, first_with_topic t 0 ns = Some (i, n)).
Proof.
  intros H. apply merge_step_cases in H as [(i & n & E & ->)|(E & ->)].
  - exists i, (last_sent n). split; [|right; eauto].
    apply first_with_topic_lookup in E as (Hi & Ht & Hpre).
    apply first_with_topic_Some. exists i. repeat split.
    + apply list_lookup_insert_eq. now apply lookup_lt_Some with n.
    + now rewrite take_insert_ge.
  - exists (length ns), None. split; [|now left].
    apply first_with_topic_None in E.
    apply first_with_topic_Some. exists (length ns). repeat split.
    + now apply list_lookup_middle.
    + now rewrite take_app_length.
Qed.

Lemma merge_total (ns : list Notification) (sels : list Selection) :
  exists ns', merge ns sels = Ok ns'.
Proof.
  revert ns; induction sels as [|s sels IH]; intros ns; simpl; [eauto|].
  destruct (merge_step_total ns (sel_topic s) (sel_frequency s) (sel_now s))
    as [ns1 ->]. simpl. apply IH.
Qed.

(** After a merge, the first record of every selected topic is one the
    merge wrote. *)
Lemma merge_written (S : list Selection) :
  forall (sels : list Selection) (ns ns' : list Notification),
    (forall s, s ∈ sels -> s ∈ S) ->
    merge ns sels = Ok ns' ->
    forall t,
      ((exists s, s ∈ sels /\ sel_topic s = t) \/ written_by S ns t) ->
      written_by S ns' t.
Proof.
  induction sels as [|s sels IH]; intros ns ns' Hsub; simpl.
  - intros [= <-] t [(s & Hs & _)|Hold]; [|exact Hold]. now apply elem_of_nil in Hs.
  - destruct (merge_step ns (sel_topic s) (sel_frequency s) (sel_now s))
      as [ns1|e] eqn:E; simpl; [|discriminate].
    intros Hrest t Ht. apply (IH ns1 ns'); [|exact Hrest|].
    { intros s' Hs'. apply Hsub. now apply list_elem_of_further. }
    destruct (decide (sel_topic s = t)) as [Heq|Hne].
    + right. destruct (merge_step_first_same _ _ _ _ _ E) as (i & old & Hf & _).
      exists i, s, old. subst t. split; [apply Hsub, list_elem_of_here|].
      split; [reflexivity|exact Hf].
    + destruct Ht as [(s0 & Hs0 & Ht0)|(i & s0 & old & Hs0 & Ht0 & Hf)].
      * left. exists s0. split; [|exact Ht0].
        apply elem_of_cons in Hs0 as [->|Hs0]; [contradiction|exact Hs0].
      * right. exists i, s0, old. split; [exact Hs0|]. split; [exact Ht0|].
        now rewrite (merge_step_first_other _ _ _ _ _ _ E Hne).
Qed.

(** A recurring frequency already recorded: the update changes nothing. *)
Lemma merge_step_fixed (ns : list Notification) (t f : string) (now : Z)
    (i : nat) (old : option Z) :
  String.eqb f "instant" = false ->
  first_with_topic t 0 ns = Some (i, {| topic := t; frequency := f; last_sent := old |}) ->
  merge_step ns t f now = Ok ns.
Proof.
  intros Hf E. rewrite (merge_step_found _ _ _ _ _ _ E). f_equal.
  unfold stamped. rewrite Hf. simpl.
  apply list_insert_id. now apply first_with_topic_lookup in E as (Hi & _).
Qed.

Lemma merge_fixed (f : string) (sels : list Selection) (ns : list Notification) :
  String.eqb f "instant" = false ->
  Forall (fun s => sel_frequency s = f) sels ->
  (forall s, s ∈ sels -> exists i old, first_with_topic (sel_topic s) 0 ns =
     Some (i, {| topic := sel_topic s; frequency := f; last_sent := old |})) ->
  merge ns sels = Ok ns.
Proof.
  intros Hf. induction sels as [|s sels IH]; intros Hfreq Hall; simpl; [reflexivity|].
  apply Forall_cons in Hfreq as [Hs Hfreq].
  destruct (Hall s) as (i & old & E); [apply list_elem_of_here|].
  rewrite Hs, (merge_step_fixed _ _ _ _ _ _ Hf E). simpl.
  apply IH; [exact Hfreq|]. intros s' Hs'. apply Hall. now apply list_elem_of_further.
Qed.

Lemma restamped_refl (sels : list Selection) (n : Notification) :
  restamped sels n n.
Proof. unfold restamped. auto. Qed.

Lemma rerun_invariant_step (S : list Selection) (ns1 B B' : list Notification)
    (s : Selection) :
  s ∈ S ->
  rerun_invariant S ns1 B ->
  merge_step B (sel_topic s) "instant" (sel_now s) = Ok B' ->
  rerun_invariant S ns1 B'.
Proof.
  intros Hs (Ha & Hb & Hc) H.
  destruct (Ha s Hs) as (i & ls & E).
  repeat split.
  - intros s0 Hs0. destruct (decide (sel_topic s = sel_topic s0)) as [Heq|Hne].
    + destruct (merge_step_first_same _ _ _ _ _ H) as (i' & old & Hf & _).
      rewrite <- Heq. eauto.
    + rewrite (merge_step_first_other _ _ _ _ _ _ H Hne). now apply Ha.
  - intros j n1 Hj. destruct (Hb j n1 Hj) as (n2 & Hj2 & Hr).
    destruct (merge_step_lookup _ _ _ _ _ _ _ H Hj2) as [Hsame|[Hfirst Hnew]].
    + exists n2. auto.
    + rewrite E in Hfirst. injection Hfirst as -> <-.
      eexists. split; [exact Hnew|].
      destruct Hr as (Htopic & Hfreq & _). simpl in *.
      repeat split; [assumption..|].
      right. exists s. auto.
  - rewrite (merge_step_found _ _ _ _ _ _ E) in H. injection H as <-.
    now rewrite length_insert.
Qed.

Lemma rerun_invariant_merge (S : list Selection) (ns1 : list Notification) :
  forall (sels : list Selection) (B B' : list Notification),
    (forall s, s ∈ sels -> s ∈ S) ->
    Forall (fun s => sel_frequency s = "instant") sels ->
    rerun_invariant S ns1 B ->
    merge B sels = Ok B' ->
    rerun_invariant S ns1 B'.
Proof.
  induction sels as [|s sels IH]; intros B B' Hsub Hfreq HJ; simpl.
  - now intros [= <-].
  - apply Forall_cons in Hfreq as [Hs Hfreq]. rewrite Hs.
    destruct (merge_step B (sel_topic s) "instant" (sel_now s)) as [B1|e] eqn:E;
      simpl; [|discriminate].
    apply IH; [|exact Hfreq|].
    + intros s' Hs'. apply Hsub. now apply list_elem_of_further.
    + apply (rerun_invariant_step S ns1 B B1 s); [|exact HJ|exact E].
      apply Hsub, list_elem_of_here.
Qed.

(** C3. Merging the same selection a second time: the same topics in the
    same order, each with frequency [f], at whatever clock readings.  For a
    recurring frequency the second merge changes nothing.  For instant it
    keeps every record in place with its topic and frequency and changes
    [last_sent] only, to a clock reading of the second merge, which is then
    the [last_sent] of the record of every selected topic. *)
Theorem merge_twice (ns : list Notification) (sels1 sels2 : list Selection)
    (f : string) :
  sel_topic <$> sels2 = sel_topic <$> sels1 ->
  Forall (fun s => sel_frequency s = f) sels1 ->
  Forall (fun s => sel_frequency s = f) sels2 ->
  exists ns1 ns2,
    merge ns sels1 = Ok ns1 /\
    merge ns1 sels2 = Ok ns2 /\
    (f <> "instant" -> ns2 = ns1) /\
    (f = "instant" ->
       length ns2 = length ns1 /\
       (forall j n1, ns1 !! j = Some n1 ->
          exists n2, ns2 !! j = Some n2 /\ restamped sels2 n1 n2) /\
       (forall s, s ∈ sels2 ->
          exists i n2 s',
            first_with_topic (sel_topic s) 0 ns2 = Some (i, n2) /\
            s' ∈ sels2 /\ sel_topic s' = sel_topic s /\
            last_sent n2 = Some (sel_now s'))).
Proof.
  intros Htopics Hf1 Hf2.
  destruct (merge_total ns sels1) as [ns1 H1].
  destruct (merge_total ns1 sels2) as [ns2 H2].
  exists ns1, ns2. split; [exact H1|]. split; [exact H2|].
  assert (Hfirst : forall s, s ∈ sels2 ->
            exists i old, first_with_topic (sel_topic s) 0 ns1 =
              Some (i, {| topic := sel_topic s; frequency := f;
                          last_sent := stamped f old.1 old.2 |})).
  { intros s Hs.
    assert (Hin : sel_topic s ∈ sel_topic <$> sels1).
    { rewrite <- Htopics. now apply list_elem_of_fmap_2. }
    apply list_elem_of_fmap in Hin as (s1 & Hts & Hs1).
    destruct (merge_written sels1 sels1 ns ns1 (fun _ H => H) H1 (sel_topic s))
      as (i & s' & old & Hs' & _ & E); [left; eauto|].
    rewrite Forall_forall in Hf1. rewrite (Hf1 s' Hs') in E.
    exists i, (sel_now s', old). exact E. }
  split.
  - intros Hf. apply String.eqb_neq in Hf.
    rewrite (merge_fixed f sels2 ns1 Hf Hf2) in H2; [now injection H2|].
    intros s Hs. destruct (Hfirst s Hs) as (i & old & E).
    exists i, old.2. rewrite E. unfold stamped. now rewrite Hf.
  - intros ->.
    assert (HJ : rerun_invariant sels2 ns1 ns1).
    { repeat split.
      - intros s Hs. destruct (Hfirst s Hs) as (i & old & E). eauto.
      - intros j n1 Hj. exists n1. split; [exact Hj|apply restamped_refl]. }
    apply (rerun_invariant_merge sels2 ns1 sels2 ns1 ns2) in HJ;
      [|auto|exact Hf2|exact H2].
    destruct HJ as (_ & Hb & Hc). split; [exact Hc|]. split; [exact Hb|].
    intros s Hs.
    destruct (merge_written sels2 sels2 ns1 ns2 (fun _ H => H) H2 (sel_topic s))
      as (i & s' & old & Hs' & Ht' & E); [left; eauto|].
    eexists i, _, s'. split; [exact E|]. split; [exact Hs'|]. split; [exact Ht'|].
    simpl. rewrite Forall_forall in Hf2. now rewrite (Hf2 s' Hs').
Qed.

Lemma merge_twice_witness :
  let first := [ selection_of "daily" 10%Z (fun _ => false) "billing";
                 selection_of "daily" 11%Z (fun _ => false) "security" ] in
  let again := [ selection_of "daily" 20%Z (fun _ => true) "billing";
                 selection_of "daily" 21%Z (fun _ => true) "security" ] in
  let first_i := [ selection_of "instant" 10%Z (fun _ => false) "billing" ] in
  let again_i := [ selection_of "instant" 20%Z (fun _ => false) "billing" ] in
  sel_topic <$> again = sel_topic <$> first /\
  Forall (fun s => sel_frequency s = "daily") first /\
  Forall (fun s => sel_frequency s = "daily") again /\
  (exists ns1 ns2,
     merge [] first = Ok ns1 /\ merge ns1 again = Ok ns2 /\ ns2 = ns1) /\
  (exists ns1 ns2,
     merge [] first_i = Ok ns1 /\ merge ns1 again_i = Ok ns2 /\
     length ns2 = length ns1 /\
     forall j n1, ns1 !! j = Some n1 ->
       exists n2, ns2 !! j = Some n2 /\ restamped again_i n1 n2).
Proof.
  intros first again first_i again_i.
  assert (H1 : Forall (fun s => sel_frequency s = "daily") first)
    by (repeat constructor).
  assert (H2 : Forall (fun s => sel_frequency s = "daily") again)
    by (repeat constructor).
  split; [reflexivity|]. split; [exact H1|]. split; [exact H2|]. split.
  - destruct (merge_twice [] first again "daily" eq_refl H1 H2)
      as (ns1 & ns2 & Hm1 & Hm2 & Hd & _).
    exists ns1, ns2. split; [exact Hm1|]. split; [exact Hm2|].
    apply Hd. discriminate.
  - destruct (merge_twice [] first_i again_i "instant" eq_refl)
      as (ns1 & ns2 & Hm1 & Hm2 & _ & Hi); [repeat constructor..|].
    destruct (Hi eq_refl) as (Hlen & Hpt & _).
    exists ns1, ns2. split; [exact Hm1|]. split; [exact Hm2|].
    split; [exact Hlen|exact Hpt].
Defined.

(** The instant case on an example: after the second merge the record of
    each topic carries the clock reading of its second selection. *)
Example merge_twice_instant :
  let first := [ selection_of "instant" 10%Z (fun _ => false) "billing";
                 selection_of "instant" 11%Z (fun _ => false) "security" ] in
  let again := [ selection_of "instant" 20%Z (fun _ => false) "billing";
                 selection_of "instant" 21%Z (fun _ => false) "security" ] in
  (ns1 ← merge [] first; merge ns1 again) =
  Ok [ {| topic := "billing"; frequency := "instant"; last_sent := Some 20%Z |};
       {| topic := "security"; frequency := "instant"; last_sent := Some 21%Z |} ].
Proof. reflexivity. Qed.

(** ** Instant selections and the messages sent *)

(** C5 as stated fails, a merge with instant need not issue a send: here the
    sender is configured, the topic is selected with instant at time 100 and
    the Send Now button is not clicked; [last_sent] becomes 100 and no message
    is handed to the transport. *)
Lemma instant_without_send :
  schedule_topic
    (Some {| sender_email := "ops@x.com"; sender_password := "secret";
             smtp_server := "smtp.gmail.com"; smtp_port := 587%Z |})
    "r@x.com" ([], [])
    {| sel_topic := "security"; sel_frequency := "instant";
       sel_send_now := false; sel_now := 100%Z |}
  = Ok ([ {| topic := "security"; frequency := "instant"; last_sent := Some 100%Z |} ],
        []).
Proof. reflexivity. Qed.

(** C5, as the code has it.  An iteration that selects a topic with instant
    stamps the topic's record with the current time at once.  A message for
    the recipient and the topic goes to the transport in that iteration only
    when the Send Now button was clicked and the sender is configured, and
    then exactly one; otherwise none is sent. *)
Theorem instant_selection (config : option EmailConfig) (r : string)
    (ns : list Notification) (outbox : list Email) (s : Selection) :
  sel_frequency s = "instant" ->
  exists ns',
    schedule_topic config r (ns, outbox) s =
      Ok (ns', outbox ++
               (if sel_send_now s then
                  match config with
                  | Some c => [send_instant_email c r (sel_topic s)]
                  | None => []
                  end
                else []))
    /\ exists i n,
         first_with_topic (sel_topic s) 0 ns' = Some (i, n) /\
         frequency n = "instant" /\ last_sent n = Some (sel_now s).
Proof.
  intros Hf. rewrite schedule_topic_eq.
  destruct (merge_step ns (sel_topic s) (sel_frequency s) (sel_now s))
    as [ns'|e] eqn:E.
  2:{ destruct (merge_step_total ns (sel_topic s) (sel_frequency s) (sel_now s))
        as [? ?]; congruence. }
  exists ns'. split.
  - simpl. unfold sent_in. rewrite Hf. reflexivity.
  - destruct (merge_step_first_same _ _ _ _ _ E) as (i & old & Hfirst & _).
    eexists i, _. split; [exact Hfirst|]. simpl. rewrite Hf. split; reflexivity.
Qed.

Lemma instant_selection_witness :
  let c := {| sender_email := "ops@x.com"; sender_password := "secret";
              smtp_server := "smtp.gmail.com"; smtp_port := 587%Z |} in
  let s := {| sel_topic := "security"; sel_frequency := "instant";
              sel_send_now := true; sel_now := 100%Z |} in
  sel_frequency s = "instant" /\
  exists ns',
    schedule_topic (Some c) "r@x.com" ([], []) s =
      Ok (ns', [] ++ [send_instant_email c "r@x.com" "security"])
    /\ exists i n,
         first_with_topic "security" 0 ns' = Some (i, n) /\
         frequency n = "instant" /\ last_sent n = Some 100%Z.
Proof.
  intros c s. split; [reflexivity|].
  apply (instant_selection (Some c) "r@x.com" [] [] s). reflexivity.
Defined.

(** ** Adding a recipient *)

(** C6 as stated fails, a second Add of the same address is not refused and
    does not leave the directory as it was: with a@x.com in the directory, and
    whatever the validation of addresses is as long as it accepts a@x.com
    as written, Add of a@x.com reports success and the directory holds the
    address twice. *)
Lemma add_duplicate_accepted :
  let r := {| email := "a@x.com"; topics := []; notifications := [] |} in
  let ss := {| ss_recipients := [r]; ss_topics := [] |} in
  "a@x.com" ∈ (email <$> ss_recipients ss) /\
  forall validate : string -> option string,
    validate "a@x.com" = Some "a@x.com" ->
    ss_recipients (add_recipient validate true "a@x.com" ss NoFile).1.1 = [r; r] /\
    (add_recipient validate true "a@x.com" ss NoFile).2 = Some Success.
Proof.
  intros r ss. split.
  - simpl. apply list_elem_of_here.
  - intros validate Hv. unfold add_recipient, Recipient_init. simpl.
    rewrite Hv. simpl. split; reflexivity.
Qed.

(** The handler changes the session state in one way only: it appends the
    new recipient, once the address is validated. *)
Lemma add_recipient_valid (validate : string -> option string)
    (new_email a : string) (ss : SessionState) (file : DataFile) :
  new_email <> "" ->
  validate new_email = Some a ->
  (add_recipient validate true new_email ss file).1.1 =
  {| ss_recipients := ss_recipients ss ++
                      [{| email := a; topics := []; notifications := [] |}];
     ss_topics := ss_topics ss |}.
Proof.
  intros Hne Hv. unfold add_recipient, Recipient_init.
  apply String.eqb_neq in Hne. rewrite Hne, Hv. simpl.
  match goal with |- context [save_data ?a ?b] => destruct (save_data a b) as [f' [[]|e]] end;
    reflexivity.
Qed.

(** C6, as the code has it.  A non-empty address that passes the validation
    of the Recipient model is appended to the directory as a new entry with
    no topics and no notifications, the earlier entries unchanged and in
    order, whether or not the address is already there: there is no duplicate
    check.  An address that fails validation is reported as an error and
    changes neither the directory nor the file. *)
Theorem add_recipient_appends (validate : string -> option string)
    (new_email : string) (ss : SessionState) (file : DataFile) :
  new_email <> "" ->
  (forall a, validate new_email = Some a ->
     ss_recipients (add_recipient validate true new_email ss file).1.1 =
       ss_recipients ss ++ [{| email := a; topics := []; notifications := [] |}]
     /\ ss_topics (add_recipient validate true new_email ss file).1.1 = ss_topics ss)
  /\
  (validate new_email = None ->
     add_recipient validate true new_email ss file =
       (ss, file, Some (Error ValidationError))).
Proof.
  intros Hne. split.
  - intros a Hv. rewrite (add_recipient_valid _ _ _ _ _ Hne Hv). split; reflexivity.
  - intros Hv. unfold add_recipient, Recipient_init.
    apply String.eqb_neq in Hne. rewrite Hne, Hv. reflexivity.
Qed.

Lemma add_recipient_appends_witness :
  let validate := fun e : string => if String.eqb e "not an address" then None else Some e in
  let r := {| email := "a@x.com"; topics := []; notifications := [] |} in
  let ss := {| ss_recipients := [r]; ss_topics := ["billing"] |} in
  "b@x.com" <> "" /\
  ss_recipients (add_recipient validate true "b@x.com" ss NoFile).1.1 =
    [r; {| email := "b@x.com"; topics := []; notifications := [] |}] /\
  ss_recipients (add_recipient validate true "a@x.com" ss NoFile).1.1 = [r; r].
Proof.
  intros validate r ss. split; [discriminate|]. split.
  - apply (proj1 (add_recipient_appends validate "b@x.com" ss NoFile
                    ltac:(discriminate)) "b@x.com" eq_refl).
  - apply (proj1 (add_recipient_appends validate "a@x.com" ss NoFile
                    ltac:(discriminate)) "a@x.com" eq_refl).
Defined.

(** ** Frequencies of the records *)

(** C9 as stated fails, construction does not fail for an unrecognized
    frequency: the value hourly is accepted and stored. *)
Lemma unrecognized_frequency_accepted :
  Notification_init "billing" "hourly" None =
  Ok {| topic := "billing"; frequency := "hourly"; last_sent := None |}.
Proof. reflexivity. Qed.

(** C9, as the code has it.  Construction of a Notification succeeds for
    every frequency string and stores it as given.  What keeps other values
    out of the records is the frequency selectbox: an update with one of its
    four options, on records that hold only those, yields records that hold
    only those. *)
Theorem frequency_not_validated (t f : string) (ls : option Z) :
  Notification_init t f ls = Ok {| topic := t; frequency := f; last_sent := ls |}
  /\
  forall (ns : list Notification) (now : Z),
    f ∈ frequency_options ->
    Forall (fun n => frequency n ∈ frequency_options) ns ->
    exists ns', merge_step ns t f now = Ok ns' /\
                Forall (fun n => frequency n ∈ frequency_options) ns'.
Proof.
  split; [reflexivity|].
  intros ns now Hf Hall.
  destruct (merge_step_total ns t f now) as [ns' H]. exists ns'.
  split; [exact H|].
  apply merge_step_cases in H as [(i & n & E & ->)|(E & ->)].
  - apply Forall_insert; assumption.
  - apply Forall_app. split; [assumption|]. now constructor.
Qed.

Lemma frequency_not_validated_witness :
  let ns := [ {| topic := "billing"; frequency := "daily"; last_sent := None |} ] in
  Notification_init "billing" "weekly" None =
    Ok {| topic := "billing"; frequency := "weekly"; last_sent := None |}
  /\ exists ns', merge_step ns "billing" "weekly" 7%Z = Ok ns' /\
                 Forall (fun n => frequency n ∈ frequency_options) ns'.
Proof.
  intros ns.
  destruct (frequency_not_validated "billing" "weekly" None) as [Hinit Hstep].
  split; [exact Hinit|]. apply Hstep.
  - unfold frequency_options. do 2 apply list_elem_of_further. apply list_elem_of_here.
  - repeat constructor.
Defined.

(** ** Due evaluation *)

Lemma due_eval_period (t f : string) (p : Z) (ls : option Z) (now : Z) :
  period f = Some p ->
  due_eval {| topic := t; frequency := f; last_sent := ls |} now =
  match ls with
  | None => Due
  | Some sent => if (p <=? now - sent)%Z then Due else NotDue
  end.
Proof.
  intros Hp. unfold due_eval. simpl.
  destruct (String.eqb_spec f "instant") as [->|_]; [discriminate Hp|].
  now rewrite Hp.
Qed.

(** C2. The due evaluator on recurring records: for daily, weekly and
    monthly, with periods of 24 hours, 7 times 24 hours and 30 times 24
    hours, a record is due exactly when it was never sent or at least one
    period has passed since [last_sent], and not due exactly when it was
    sent less than one period ago.  At the threshold itself it is due: a
    daily record sent 24 hours ago is due, one sent a second later is not. *)
Theorem due_eval_thresholds (t : string) (ls : option Z) (now : Z) :
  (forall f p,
     (f, p) ∈ [("daily", hours 24); ("weekly", 7 * hours 24)%Z;
               ("monthly", 30 * hours 24)%Z] ->
     (due_eval {| topic := t; frequency := f; last_sent := ls |} now = Due <->
      ls = None \/ exists sent, ls = Some sent /\ (p <= now - sent)%Z)
     /\
     (due_eval {| topic := t; frequency := f; last_sent := ls |} now = NotDue <->
      exists sent, ls = Some sent /\ (now - sent < p)%Z))
  /\ due_eval {| topic := t; frequency := "daily";
                 last_sent := Some (now - hours 24)%Z |} now = Due
  /\ due_eval {| topic := t; frequency := "daily";
                 last_sent := Some (now - hours 24 + 1)%Z |} now = NotDue.
Proof.
  split; [|split].
  - intros f p Hin.
    assert (Hp : period f = Some p).
    { repeat (apply elem_of_cons in Hin as [[= -> ->]|Hin]); try reflexivity.
      now apply elem_of_nil in Hin. }
    rewrite (due_eval_period _ _ _ _ _ Hp). destruct ls as [sent|].
    + destruct (Z.leb_spec p (now - sent)) as [Hle|Hlt]; split; split.
      * intros _. right. eauto.
      * reflexivity.
      * discriminate.
      * intros (x & [= ->] & Hx). lia.
      * discriminate.
      * intros [Habs|(x & [= ->] & Hx)]; [discriminate|lia].
      * intros _. eauto.
      * reflexivity.
    + split; split.
      * auto.
      * reflexivity.
      * discriminate.
      * intros (x & Habs & _). discriminate.
  - rewrite (due_eval_period _ "daily" (hours 24)) by reflexivity.
    destruct (Z.leb_spec (hours 24) (now - (now - hours 24))); [reflexivity|lia].
  - rewrite (due_eval_period _ "daily" (hours 24)) by reflexivity.
    destruct (Z.leb_spec (hours 24) (now - (now - hours 24 + 1))); [lia|reflexivity].
Qed.

Lemma due_eval_thresholds_witness :
  due_eval {| topic := "billing"; frequency := "weekly"; last_sent := Some 0%Z |}
    604800%Z = Due
  /\ due_eval {| topic := "billing"; frequency := "weekly"; last_sent := Some 0%Z |}
    604799%Z = NotDue.
Proof.
  split.
  - destruct (due_eval_thresholds "billing" (Some 0%Z) 604800%Z) as [H _].
    apply (H "weekly" (7 * hours 24)%Z).
    + apply list_elem_of_further, list_elem_of_here.
    + right. exists 0%Z. split; [reflexivity|]. unfold hours. lia.
  - destruct (due_eval_thresholds "billing" (Some 0%Z) 604799%Z) as [H _].
    apply (H "weekly" (7 * hours 24)%Z).
    + apply list_elem_of_further, list_elem_of_here.
    + exists 0%Z. split; [reflexivity|]. unfold hours. lia.
Defined.

(** ** The JSON file *)

Lemma mapM_Py_cons {A B : Type} (f : A -> Py B) (x : A) (l : list A) :
  mapM f (x :: l) = y ← f x; ys ← mapM f l; Ok (y :: ys).
Proof. reflexivity. Qed.

(** What was written element by element is read back element by element. *)
Lemma mapM_Py_inverse {A B : Type} (f : A -> Py B) (g : B -> A) (l : list A) :
  Forall (fun x => forall y, f x = Ok y -> g y = x) l ->
  forall ys, mapM f l = Ok ys -> g <$> ys = l.
Proof.
  induction 1 as [|x l Hx _ IH]; intros ys.
  - now intros [= <-].
  - rewrite mapM_Py_cons. destruct (f x) as [y|e] eqn:E; simpl; [|discriminate].
    destruct (mapM f l) as [ys'|e]; simpl; [|discriminate].
    intros [= <-]. simpl. f_equal; [apply Hx, eq_refl|apply IH, eq_refl].
Qed.

Lemma mapM_Py_total {A B : Type} (f : A -> Py B) (l : list A) :
  Forall (fun x => exists y, f x = Ok y) l -> exists ys, mapM f l = Ok ys.
Proof.
  induction 1 as [|x l [y Hy] _ [ys IH]].
  - now exists [].
  - exists (y :: ys). rewrite mapM_Py_cons, Hy. simpl. now rewrite IH.
Qed.

(** Reading back what [json.dump] wrote gives the value written. *)
Lemma json_load_dump (v : pyval) :
  forall j, json_dump v = Ok j -> json_load j = v.
Proof.
  induction v as [|s|t|items IH|items IH] using pyval_induction; intros j; simpl.
  - now intros [= <-].
  - now intros [= <-].
  - discriminate.
  - destruct (mapM json_dump items) as [js|e] eqn:E; simpl; [|discriminate].
    intros [= <-]. simpl. f_equal.
    exact (mapM_Py_inverse json_dump json_load items IH js E).
  - destruct (mapM (fun kv => j ← json_dump kv.2; Ok (kv.1, j)) items)
      as [ms|e] eqn:E; simpl; [|discriminate].
    intros [= <-]. simpl. f_equal.
    apply (mapM_Py_inverse (fun kv => j ← json_dump kv.2; Ok (kv.1, j))
             (fun m => (m.1, json_load m.2)) items); [|exact E].
    eapply Forall_impl; [exact IH|]. intros [k x] Hx [k' j']. simpl in *.
    destruct (json_dump x) as [jx|e] eqn:Ex; simpl; [|discriminate].
    intros [= <- <-]. simpl. f_equal. now apply Hx.
Qed.

(** A value without datetimes is written. *)
Lemma json_dump_serializable (v : pyval) :
  serializable v = true -> exists j, json_dump v = Ok j.
Proof.
  induction v as [|s|t|items IH|items IH] using pyval_induction; simpl.
  - eauto.
  - eauto.
  - discriminate.
  - intros Hs. destruct (mapM_Py_total json_dump items) as [js ->]; [|simpl; eauto].
    rewrite forallb_forall in Hs. rewrite Forall_forall in IH |- *.
    intros x Hx. apply (IH x Hx), Hs. now apply list_elem_of_In.
  - intros Hs.
    destruct (mapM_Py_total (fun kv => j ← json_dump kv.2; Ok (kv.1, j)) items)
      as [ms ->]; [|simpl; eauto].
    rewrite forallb_forall in Hs. rewrite Forall_forall in IH |- *.
    intros [k x] Hx. destruct (IH (k, x) Hx) as [j Hj].
    + apply (Hs (k, x)). now apply list_elem_of_In.
    + simpl in Hj. exists (k, j). simpl. now rewrite Hj.
Qed.

(** The session lists hold no datetime when no record has a [last_sent]. *)
Lemma serializable_recipients (rs : list Recipient) :
  (forall r n, r ∈ rs -> n ∈ notifications r -> last_sent n = None) ->
  serializable (recipients_value rs) = true.
Proof.
  intros Hnull. unfold recipients_value. simpl.
  apply forallb_forall. intros v Hv.
  apply list_elem_of_In, list_elem_of_fmap in Hv as (r & -> & Hr). simpl.
  rewrite !andb_true_r. apply andb_true_iff. split.
  - apply forallb_forall. intros v Hv.
    now apply list_elem_of_In, list_elem_of_fmap in Hv as (s & -> & _).
  - apply forallb_forall. intros v Hv.
    apply list_elem_of_In, list_elem_of_fmap in Hv as (n & -> & Hn). simpl.
    now rewrite (Hnull r n Hr Hn).
Qed.

Lemma serializable_topics (ts : list string) :
  serializable (topics_value ts) = true.
Proof.
  unfold topics_value. simpl. apply forallb_forall. intros v Hv.
  now apply list_elem_of_In, list_elem_of_fmap in Hv as (s & -> & _).
Qed.

(** Different directories are different Python values: the lists read
    back determine the recipients and the topics. *)
Lemma fmap_injective {A B : Type} (f : A -> B) :
  (forall x y, f x = f y -> x = y) ->
  forall l k : list A, f <$> l = f <$> k -> l = k.
Proof.
  intros Hf. induction l as [|x l IH]; intros [|y k]; simpl; try discriminate.
  - reflexivity.
  - intros [= Hxy Hlk]. f_equal; [now apply Hf|now apply IH].
Qed.

Lemma Notification_dict_inj (n1 n2 : Notification) :
  Notification_dict n1 = Notification_dict n2 -> n1 = n2.
Proof.
  destruct n1 as [t1 f1 [l1|]], n2 as [t2 f2 [l2|]]; unfold Notification_dict; simpl;
    intros H; simplify_eq; reflexivity.
Qed.

Lemma Recipient_dict_inj (r1 r2 : Recipient) :
  Recipient_dict r1 = Recipient_dict r2 -> r1 = r2.
Proof.
  destruct r1 as [e1 ts1 ns1], r2 as [e2 ts2 ns2]; unfold Recipient_dict; simpl.
  intros [= -> Hts Hns]. f_equal.
  - apply (fmap_injective PyStr); [now intros x y [= ->]|exact Hts].
  - apply (fmap_injective Notification_dict); [apply Notification_dict_inj|exact Hns].
Qed.

Lemma session_values_inj (rs rs' : list Recipient) (ts ts' : list string) :
  recipients_value rs = recipients_value rs' ->
  topics_value ts = topics_value ts' ->
  rs = rs' /\ ts = ts'.
Proof.
  unfold recipients_value, topics_value. intros [= Hrs] [= Hts]. split.
  - apply (fmap_injective Recipient_dict); [apply Recipient_dict_inj|exact Hrs].
  - apply (fmap_injective PyStr); [now intros x y [= ->]|exact Hts].
Qed.

(** C10. When no record has a [last_sent], [save_data] on the session's
    recipients and topics returns and leaves a complete document, and
    [load_data] on that file returns the same two lists. *)
Theorem save_load_roundtrip (rs : list Recipient) (ts : list string) :
  (forall r n, r ∈ rs -> n ∈ notifications r -> last_sent n = None) ->
  exists j,
    save_data (recipients_value rs) (topics_value ts) = (Document j, Ok tt) /\
    load_data (Document j) = Ok (recipients_value rs, topics_value ts).
Proof.
  intros Hnull.
  destruct (json_dump_serializable
              (PyDict [("recipients", recipients_value rs);
                       ("topics", topics_value ts)])) as [j Hj].
  { change (serializable (recipients_value rs) &&
            (serializable (topics_value ts) && true) = true).
    now rewrite (serializable_recipients rs Hnull), serializable_topics. }
  exists j. unfold save_data, load_data. rewrite Hj. split; [reflexivity|].
  now rewrite (json_load_dump _ _ Hj).
Qed.

Lemma save_load_roundtrip_witness :
  let rs := [ {| email := "r@x.com"; topics := ["billing"];
                 notifications :=
                   [ {| topic := "billing"; frequency := "daily"; last_sent := None |} ] |} ] in
  let ts := ["billing"; "security"] in
  exists j,
    save_data (recipients_value rs) (topics_value ts) = (Document j, Ok tt) /\
    load_data (Document j) = Ok (recipients_value rs, topics_value ts).
Proof.
  intros rs ts. apply (save_load_roundtrip rs ts).
  intros r n Hr Hn.
  apply list_elem_of_singleton in Hr. subst r.
  apply list_elem_of_singleton in Hn. subst n. reflexivity.
Defined.

(** A value with a datetime somewhere in it is refused. *)
Lemma mapM_Py_refused {A B : Type} (f : A -> Py B) (ok : A -> bool) (l : list A) :
  Forall (fun x => (ok x = true -> exists y, f x = Ok y) /\
                   (ok x = false -> f x = Raise TypeError)) l ->
  forallb ok l = false -> mapM f l = Raise TypeError.
Proof.
  induction 1 as [|x l [Hok Hbad] _ IH]; [discriminate|].
  intros Hall. simpl in Hall. rewrite mapM_Py_cons.
  destruct (ok x) eqn:Ex; simpl in Hall.
  - destruct (Hok eq_refl) as [y ->]. simpl. now rewrite (IH Hall).
  - now rewrite (Hbad eq_refl).
Qed.

Lemma json_dump_refused (v : pyval) :
  serializable v = false -> json_dump v = Raise TypeError.
Proof.
  induction v as [|s|t|items IH|items IH] using pyval_induction; simpl;
    try discriminate; try reflexivity.
  - intros Hs. rewrite (mapM_Py_refused json_dump serializable items); [reflexivity| |exact Hs].
    eapply Forall_impl; [exact IH|]. intros x Hx. split; [apply json_dump_serializable|exact Hx].
  - intros Hs.
    rewrite (mapM_Py_refused (fun kv => j ← json_dump kv.2; Ok (kv.1, j))
               (fun kv => serializable kv.2) items); [reflexivity| |exact Hs].
    eapply Forall_impl; [exact IH|]. intros [k x] Hx. simpl in *. split.
    + intros Hok. destruct (json_dump_serializable x Hok) as [j ->]. simpl. eauto.
    + intros Hbad. now rewrite (Hx Hbad).
Qed.

(** With a [last_sent] in the state the file cannot be written: [save_data]
    raises and leaves an unfinished document, which [load_data] cannot read. *)
Example save_data_datetime :
  let rs := [ {| email := "r@x.com"; topics := [];
                 notifications :=
                   [ {| topic := "security"; frequency := "instant";
                        last_sent := Some 100%Z |} ] |} ] in
  save_data (recipients_value rs) (topics_value []) = (Truncated, Raise TypeError)
  /\ load_data Truncated = Raise JSONDecodeError.
Proof. split; reflexivity. Qed.

(** * Further properties of the application *)

(** ** The notification schedule as a whole *)

Lemma notification_schedule_fst (config : option EmailConfig) (r : string)
    (ns ns' : list Notification) (outbox outbox' : list Email)
    (sels : list Selection) :
  notification_schedule config r (ns, outbox) sels = Ok (ns', outbox') ->
  merge ns sels = Ok ns'.
Proof.
  intros H. rewrite <- (notification_schedule_merge config r ns outbox sels).
  now rewrite H.
Qed.

(** Iterations for other topics do not move the first record of [t]. *)
Lemma merge_first_other (t : string) :
  forall (sels : list Selection) (ns ns' : list Notification),
    (forall s, s ∈ sels -> sel_topic s <> t) ->
    merge ns sels = Ok ns' ->
    first_with_topic t 0 ns' = first_with_topic t 0 ns.
Proof.
  induction sels as [|s sels IH]; intros ns ns' Hother; simpl.
  - now intros [= <-].
  - destruct (merge_step ns (sel_topic s) (sel_frequency s) (sel_now s))
      as [ns1|e] eqn:E; simpl; [|discriminate].
    intros Hrest. rewrite (IH ns1 ns'); [| |exact Hrest].
    + apply (merge_step_first_other _ _ _ _ _ _ E).
      apply Hother, list_elem_of_here.
    + intros s' Hs'. apply Hother. now apply list_elem_of_further.
Qed.

(** The record an update leaves first for its topic, with the [last_sent]
    it took over. *)
Lemma merge_step_first_exact (ns ns' : list Notification) (t f : string) (now : Z) :
  merge_step ns t f now = Ok ns' ->
  exists i,
    first_with_topic t 0 ns' =
      Some (i, {| topic := t; frequency := f;
                  last_sent := stamped f now (previous_last_sent t ns) |}).
Proof.
  intros H. unfold previous_last_sent.
  apply merge_step_cases in H as [(i & n & E & ->)|(E & ->)]; rewrite E.
  - exists i. apply first_with_topic_lookup in E as (Hi & Ht & Hpre).
    apply first_with_topic_Some. exists i. repeat split.
    + apply list_lookup_insert_eq. now apply lookup_lt_Some with n.
    + now rewrite take_insert_ge.
  - exists (length ns). apply first_with_topic_None in E.
    apply first_with_topic_Some. exists (length ns). repeat split.
    + now apply list_lookup_middle.
    + now rewrite take_app_length.
Qed.

Lemma merge_selected (sels : list Selection) :
  NoDup (sel_topic <$> sels) ->
  forall ns ns' : list Notification,
    merge ns sels = Ok ns' ->
    forall s, s ∈ sels ->
      exists i,
        first_with_topic (sel_topic s) 0 ns' =
          Some (i, {| topic := sel_topic s; frequency := sel_frequency s;
                      last_sent := stamped (sel_frequency s) (sel_now s)
                                     (previous_last_sent (sel_topic s) ns) |}).
Proof.
  induction sels as [|s0 sels IH]; intros Hnd ns ns'; simpl.
  - intros _ s Hs. now apply elem_of_nil in Hs.
  - simpl in Hnd. apply NoDup_cons in Hnd as [Hfresh Hnd].
    destruct (merge_step ns (sel_topic s0) (sel_frequency s0) (sel_now s0))
      as [ns1|e] eqn:E; simpl; [|discriminate].
    intros Hrest s Hs. apply elem_of_cons in Hs as [->|Hs].
    + destruct (merge_step_first_exact _ _ _ _ _ E) as [i Hi]. exists i.
      rewrite (merge_first_other (sel_topic s0) sels ns1 ns'); [exact Hi| |exact Hrest].
      intros s' Hs' Heq. apply Hfresh. rewrite <- Heq.
      now apply list_elem_of_fmap_2.
    + destruct (IH Hnd ns1 ns' Hrest s Hs) as [i Hi]. exists i. rewrite Hi.
      unfold previous_last_sent.
      rewrite (merge_step_first_other _ _ _ _ _ _ E); [reflexivity|].
      intros Heq. apply Hfresh. rewrite Heq. now apply list_elem_of_fmap_2.
Qed.

(** X1. After a run of the notification schedule over distinct selected
    topics, the record the loop finds for each selected topic has the
    frequency chosen for it; its [last_sent] is the clock reading of its
    iteration for instant and otherwise what the topic's record had before
    the run (absent if there was none). *)
Theorem schedule_records_selection (config : option EmailConfig) (r : string)
    (ns : list Notification) (outbox : list Email) (sels : list Selection) :
  NoDup (sel_topic <$> sels) ->
  exists ns' outbox',
    notification_schedule config r (ns, outbox) sels = Ok (ns', outbox') /\
    forall s, s ∈ sels ->
      exists i,
        first_with_topic (sel_topic s) 0 ns' =
          Some (i, {| topic := sel_topic s; frequency := sel_frequency s;
                      last_sent := if String.eqb (sel_frequency s) "instant"
                                   then Some (sel_now s)
                                   else previous_last_sent (sel_topic s) ns |}).
Proof.
  intros Hnd.
  destruct (notification_schedule_total config r (ns, outbox) sels)
    as [[ns' outbox'] Hrun].
  exists ns', outbox'. split; [exact Hrun|].
  apply notification_schedule_fst in Hrun.
  exact (merge_selected sels Hnd ns ns' Hrun).
Qed.

Lemma schedule_records_selection_witness :
  let ns := [ {| topic := "billing"; frequency := "daily"; last_sent := Some 3%Z |} ] in
  let sels := [ selection_of "instant" 10%Z (fun _ => false) "security";
                selection_of "weekly" 11%Z (fun _ => false) "billing" ] in
  NoDup (sel_topic <$> sels) /\
  exists ns' outbox',
    notification_schedule None "r@x.com" (ns, []) sels = Ok (ns', outbox') /\
    forall s, s ∈ sels ->
      exists i,
        first_with_topic (sel_topic s) 0 ns' =
          Some (i, {| topic := sel_topic s; frequency := sel_frequency s;
                      last_sent := if String.eqb (sel_frequency s) "instant"
                                   then Some (sel_now s)
                                   else previous_last_sent (sel_topic s) ns |}).
Proof.
  intros ns sels.
  assert (Hnd : NoDup (sel_topic <$> sels)).
  { simpl. apply NoDup_cons. split; [|apply NoDup_singleton].
    intros H. apply list_elem_of_singleton in H. discriminate H. }
  split; [exact Hnd|].
  exact (schedule_records_selection None "r@x.com" ns [] sels Hnd).
Defined.

Lemma merge_step_prefix (ns ns' : list Notification) (t f : string) (now : Z) :
  merge_step ns t f now = Ok ns' ->
  (topic <$> ns) `prefix_of` (topic <$> ns') /\
  forall t', t' ∈ (topic <$> ns') <-> t' ∈ (topic <$> ns) \/ t' = t.
Proof.
  intros H. apply merge_step_topics in H as [[-> Hin]|[-> Hfresh]].
  - split; [reflexivity|]. intros t'. split; [auto|]. intros [H| ->]; assumption.
  - split; [now apply prefix_app_r|]. intros t'.
    rewrite elem_of_app, list_elem_of_singleton. reflexivity.
Qed.

Lemma schedule_keeps_records_helper (config : option EmailConfig) (r : string)
    (ns : list Notification) (outbox : list Email) (sels : list Selection) :
  exists ns' outbox',
    notification_schedule config r (ns, outbox) sels = Ok (ns', outbox') /\
    (topic <$> ns) `prefix_of` (topic <$> ns') /\
    forall t, t ∈ (topic <$> ns') <->
              t ∈ (topic <$> ns) \/ t ∈ (sel_topic <$> sels).
Proof.
  revert ns outbox; induction sels as [|s sels IH]; intros ns outbox.
  - exists ns, outbox. simpl. split; [reflexivity|]. split; [reflexivity|].
    intros t. split; [auto|]. intros [H|H]; [exact H|now apply elem_of_nil in H].
  - simpl. rewrite schedule_topic_eq.
    destruct (merge_step ns (sel_topic s) (sel_frequency s) (sel_now s))
      as [ns1|e] eqn:E; simpl.
    2:{ destruct (merge_step_total ns (sel_topic s) (sel_frequency s) (sel_now s))
          as [? ?]; congruence. }
    destruct (merge_step_prefix _ _ _ _ _ E) as [Hp1 Hm1].
    destruct (IH ns1 (outbox ++ sent_in config r s)) as (ns' & outbox' & Hrun & Hp & Hm).
    exists ns', outbox'. split; [exact Hrun|]. split.
    + etransitivity; eassumption.
    + intros t. rewrite Hm, Hm1, elem_of_cons. tauto.
Qed.

(** X2. A run of the notification schedule never removes a record and
    never changes the topic of one: the topics of the records before the run
    are, in order, the first topics after it, and the topics after it are
    those and the selected ones. *)
Theorem schedule_keeps_records (config : option EmailConfig) (r : string)
    (ns : list Notification) (outbox : list Email) (sels : list Selection) :
  exists ns' outbox',
    notification_schedule config r (ns, outbox) sels = Ok (ns', outbox') /\
    (topic <$> ns) `prefix_of` (topic <$> ns') /\
    forall t, t ∈ (topic <$> ns') <->
              t ∈ (topic <$> ns) \/ t ∈ (sel_topic <$> sels).
Proof.
  destruct (schedule_keeps_records_helper config r ns outbox sels)
    as (ns' & outbox' & H). exists ns', outbox'. exact H.
Qed.

Lemma merge_step_keeps_stamp (ns ns' : list Notification) (t f : string) (now : Z)
    (j : nat) (n : Notification) :
  merge_step ns t f now = Ok ns' ->
  ns !! j = Some n -> is_Some (last_sent n) ->
  exists n', ns' !! j = Some n' /\ topic n' = topic n /\ is_Some (last_sent n').
Proof.
  intros H Hj Hsome.
  destruct (merge_step_lookup _ _ _ _ _ _ _ H Hj) as [Hsame|[Hfirst Hnew]].
  - exists n. auto.
  - eexists. split; [exact Hnew|]. simpl.
    apply first_with_topic_lookup in Hfirst as (_ & Ht & _). split; [now rewrite Ht|].
    unfold stamped. destruct (String.eqb f "instant"); [eauto|exact Hsome].
Qed.

Lemma notification_schedule_keeps_stamp (config : option EmailConfig) (r : string)
    (sels : list Selection) :
  forall (ns : list Notification) (outbox : list Email),
  exists ns' outbox',
    notification_schedule config r (ns, outbox) sels = Ok (ns', outbox') /\
    forall j n, ns !! j = Some n -> is_Some (last_sent n) ->
      exists n', ns' !! j = Some n' /\ topic n' = topic n /\
                 is_Some (last_sent n').
Proof.
  induction sels as [|s sels IH]; intros ns outbox.
  - exists ns, outbox. simpl. split; [reflexivity|]. intros j n Hj Hs. eauto.
  - simpl. rewrite schedule_topic_eq.
    destruct (merge_step ns (sel_topic s) (sel_frequency s) (sel_now s))
      as [ns1|e] eqn:E; simpl.
    2:{ destruct (merge_step_total ns (sel_topic s) (sel_frequency s) (sel_now s))
          as [? ?]; congruence. }
    destruct (IH ns1 (outbox ++ sent_in config r s)) as (ns' & outbox' & Hrun & Hkeep).
    exists ns', outbox'. split; [exact Hrun|].
    intros j n Hj Hsome.
    destruct (merge_step_keeps_stamp _ _ _ _ _ _ _ E Hj Hsome) as (n1 & Hj1 & Ht1 & Hs1).
    destruct (Hkeep j n1 Hj1 Hs1) as (n' & Hj' & Ht' & Hs').
    exists n'. split; [exact Hj'|]. split; [congruence|exact Hs'].
Qed.

(** X3. A [last_sent] is never cleared: a record that has one still has one,
    at the same position and for the same topic, after any sequence of runs
    of the notification schedule, whatever frequencies are selected later. *)
Theorem last_sent_never_cleared (config : option EmailConfig) (r : string)
    (ns : list Notification) (outbox : list Email) (runs : list (list Selection)) :
  exists ns' outbox',
    reruns config r (ns, outbox) runs = Ok (ns', outbox') /\
    forall j n, ns !! j = Some n -> is_Some (last_sent n) ->
      exists n', ns' !! j = Some n' /\ topic n' = topic n /\
                 is_Some (last_sent n').
Proof.
  rewrite reruns_concat.
  apply (notification_schedule_keeps_stamp config r (concat runs) ns outbox).
Qed.


(** ** Saving a state with a last_sent *)

Lemma serializable_recipients_iff (rs : list Recipient) :
  serializable (recipients_value rs) = true <->
  forall r n, r ∈ rs -> n ∈ notifications r -> last_sent n = None.
Proof.
  split; [|apply serializable_recipients].
  unfold recipients_value. simpl. rewrite forallb_forall.
  intros Hall r n Hr Hn.
  specialize (Hall (Recipient_dict r)).
  rewrite <- list_elem_of_In in Hall.
  specialize (Hall (list_elem_of_fmap_2 _ _ _ Hr)). simpl in Hall.
  rewrite !andb_true_r in Hall. apply andb_true_iff in Hall as [_ Hall].
  rewrite forallb_forall in Hall.
  specialize (Hall (Notification_dict n)).
  rewrite <- list_elem_of_In in Hall.
  specialize (Hall (list_elem_of_fmap_2 _ _ _ Hn)). simpl in Hall.
  destruct (last_sent n); [discriminate Hall|reflexivity].
Qed.

Lemma save_data_refused (rs : list Recipient) (ts : list string) :
  serializable (recipients_value rs) = false ->
  save_data (recipients_value rs) (topics_value ts) = (Truncated, Raise TypeError).
Proof.
  intros Hs. unfold save_data. rewrite json_dump_refused; [reflexivity|].
  change (serializable (recipients_value rs) &&
          (serializable (topics_value ts) && true) = false).
  now rewrite Hs.
Qed.

(** X4. [save_data] on the session lists returns exactly when no record has
    a [last_sent].  When one has, it raises TypeError and what it leaves of
    data.json cannot be read: [load_data] on it raises JSONDecodeError. *)
Theorem save_data_needs_no_last_sent (rs : list Recipient) (ts : list string) :
  ((save_data (recipients_value rs) (topics_value ts)).2 = Ok tt <->
   forall r n, r ∈ rs -> n ∈ notifications r -> last_sent n = None)
  /\
  (forall r n, r ∈ rs -> n ∈ notifications r -> is_Some (last_sent n) ->
     save_data (recipients_value rs) (topics_value ts) = (Truncated, Raise TypeError)
     /\ load_data (save_data (recipients_value rs) (topics_value ts)).1
        = Raise JSONDecodeError).
Proof.
  assert (Hbad : serializable (recipients_value rs) = false ->
                 save_data (recipients_value rs) (topics_value ts)
                 = (Truncated, Raise TypeError))
    by apply save_data_refused.
  split.
  - destruct (serializable (recipients_value rs)) eqn:Hs.
    + pose proof (proj1 (serializable_recipients_iff rs) Hs) as Hnull.
      destruct (json_dump_serializable
                  (PyDict [("recipients", recipients_value rs);
                           ("topics", topics_value ts)])) as [j Hj].
      { change (serializable (recipients_value rs) &&
                (serializable (topics_value ts) && true) = true).
        now rewrite Hs, serializable_topics. }
      unfold save_data. rewrite Hj. simpl. tauto.
    + rewrite (Hbad eq_refl). simpl. split; [discriminate|].
      intros Hnull. apply serializable_recipients in Hnull. congruence.
  - intros r n Hr Hn [t Ht].
    assert (Hs : serializable (recipients_value rs) = false).
    { destruct (serializable (recipients_value rs)) eqn:Hs; [|reflexivity].
      rewrite serializable_recipients_iff in Hs.
      rewrite (Hs r n Hr Hn) in Ht. discriminate Ht. }
    rewrite (Hbad Hs). split; reflexivity.
Qed.

(** ** The Notifications tab on the directory *)

Lemma find_recipient_Some (e : string) (k : nat) (rs : list Recipient)
    (i : nat) (r : Recipient) :
  find_recipient e k rs = Some (i, r) <->
  exists j, i = k + j /\ rs !! j = Some r /\ email r = e /\
            Forall (fun r' => email r' <> e) (take j rs).
Proof.
  revert k; induction rs as [|r0 rs IH]; intros k; simpl.
  - split; [discriminate|]. intros (j & _ & H & _). now rewrite lookup_nil in H.
  - destruct (String.eqb_spec (email r0) e) as [E|E].
    + split.
      * intros [= <- <-]. exists 0. repeat split; auto with lia.
      * intros (j & -> & Hj & He & Hpre). destruct j as [|j].
        -- simpl in Hj. injection Hj as ->. f_equal. f_equal. lia.
        -- simpl in Hpre. inversion Hpre; contradiction.
    + rewrite IH. split.
      * intros (j & -> & Hj & He & Hpre). exists (S j).
        repeat split; auto with lia. simpl. now constructor.
      * intros (j & -> & Hj & He & Hpre). destruct j as [|j].
        -- simpl in Hj. injection Hj as ->. contradiction.
        -- exists j. simpl in Hpre. inversion Hpre; subst.
           repeat split; auto with lia.
Qed.


Lemma alter_keeps_emails (f : Recipient -> Recipient) (i : nat) (rs : list Recipient) :
  (forall r, email (f r) = email r) ->
  email <$> alter f i rs = email <$> rs.
Proof.
  intros Hf. rewrite (list_fmap_alter email f id).
  - now apply list_alter_id.
  - apply Forall_forall. intros r _. apply Hf.
Qed.

(** The recipients after a run of the tab: those before it, with the one
    at the position found changed by a function that keeps the address. *)
Lemma notifications_tab_recipients (config : option EmailConfig) (choice : nat)
    (update_topics : bool) (sels : list Selection) (save_settings : bool)
    (ss : SessionState) (file : DataFile) (outbox : list Email) :
  ss_topics (notifications_tab config choice update_topics sels save_settings
               ss file outbox).1.1.1 = ss_topics ss /\
  (ss_recipients (notifications_tab config choice update_topics sels save_settings
                    ss file outbox).1.1.1 = ss_recipients ss \/
   exists e i r0 (f : Recipient -> Recipient),
     (email <$> ss_recipients ss) !! choice = Some e /\
     find_recipient e 0 (ss_recipients ss) = Some (i, r0) /\
     (forall r, email (f r) = email r) /\
     ss_recipients (notifications_tab config choice update_topics sels save_settings
                      ss file outbox).1.1.1 = alter f i (ss_recipients ss)).
Proof.
  unfold notifications_tab.
  destruct ((email <$> ss_recipients ss) !! choice) as [e|] eqn:He; [|auto].
  destruct (String.eqb e ""); [auto|].
  destruct (find_recipient e 0 (ss_recipients ss)) as [[i r0]|] eqn:Hfind; [|auto].
  destruct update_topics.
  - destruct (save_data _ _) as [f1 [[]|e1]] eqn:Hsave; simpl.
    + destruct (notification_schedule config e (notifications r0, outbox) sels)
        as [[ns outbox']|e2]; simpl.
      * split; [reflexivity|]. right.
        exists e, i, r0, (set_notifications ns ∘ set_topics (sel_topic <$> sels)).
        repeat split; try assumption; try reflexivity.
        now rewrite list_alter_alter_eq.
      * split; [reflexivity|]. right.
        exists e, i, r0, (set_topics (sel_topic <$> sels)).
        repeat split; try assumption; reflexivity.
    + split; [reflexivity|]. right.
      exists e, i, r0, (set_topics (sel_topic <$> sels)).
      repeat split; try assumption; reflexivity.
  - simpl.
    destruct (notification_schedule config e (notifications r0, outbox) sels)
      as [[ns outbox']|e2]; simpl; [|auto].
    split; [reflexivity|]. right.
    exists e, i, r0, (set_notifications ns).
    repeat split; try assumption; reflexivity.
Qed.

(** X5. A run of the Notifications tab changes no address, no position and
    not the topic catalog, and it leaves as it is every recipient whose
    address is not the selected one, and every recipient that has an earlier
    recipient with the same address: of two recipients with one address only
    the first can be edited. *)
Theorem notifications_tab_frame (config : option EmailConfig) (choice : nat)
    (update_topics : bool) (sels : list Selection) (save_settings : bool)
    (ss : SessionState) (file : DataFile) (outbox : list Email) :
  email <$> ss_recipients (notifications_tab config choice update_topics sels
                             save_settings ss file outbox).1.1.1
    = email <$> ss_recipients ss /\
  ss_topics (notifications_tab config choice update_topics sels
               save_settings ss file outbox).1.1.1 = ss_topics ss /\
  forall j r,
    ss_recipients ss !! j = Some r ->
    ((email <$> ss_recipients ss) !! choice <> Some (email r) \/
     exists i r0, i < j /\ ss_recipients ss !! i = Some r0 /\ email r0 = email r) ->
    ss_recipients (notifications_tab config choice update_topics sels
                     save_settings ss file outbox).1.1.1 !! j = Some r.
Proof.
  destruct (notifications_tab_recipients config choice update_topics sels
              save_settings ss file outbox)
    as [Htopics [Hsame|(e & i & r0 & f & He & Hfind & Hf & Hrs)]].
  - rewrite Hsame. auto.
  - rewrite Hrs. split; [now apply alter_keeps_emails|]. split; [exact Htopics|].
    intros j r Hj Hother.
    apply find_recipient_Some in Hfind as (i' & -> & Hi & Hei & Hpre). simpl in *.
    rewrite list_lookup_alter_ne; [exact Hj|].
    intros ->. assert (r0 = r) as -> by congruence.
    destruct Hother as [Hne|(k & rk & Hk & Hrk & Hek)].
    + apply Hne. now rewrite He, Hei.
    + rewrite Forall_forall in Hpre. apply (Hpre rk); [|congruence].
      apply list_elem_of_lookup. exists k. now rewrite lookup_take_lt.
Qed.



(** ** Removing a recipient *)

Lemma first_clicked_Some (clicked : nat -> bool) (k : nat) (rs : list Recipient)
    (i : nat) :
  first_clicked clicked k rs = Some i <->
  exists j, i = k + j /\ j < length rs /\ clicked (k + j) = true /\
            forall j', j' < j -> clicked (k + j') = false.
Proof.
  revert k; induction rs as [|r rs IH]; intros k; simpl.
  - split; [discriminate|]. intros (j & _ & H & _). lia.
  - destruct (clicked k) eqn:Hk.
    + split.
      * intros [= <-]. exists 0. rewrite Nat.add_0_r. repeat split; auto with lia.
      * intros (j & -> & _ & _ & Hbefore). destruct j as [|j]; [f_equal; lia|].
        specialize (Hbefore 0 ltac:(lia)). rewrite Nat.add_0_r in Hbefore. congruence.
    + rewrite IH. split.
      * intros (j & -> & Hj & Hc & Hbefore). exists (S j).
        rewrite Nat.add_succ_r. repeat split; auto with lia.
        intros [|j'] Hj'; [now rewrite Nat.add_0_r|].
        rewrite Nat.add_succ_r. apply Hbefore. lia.
      * intros (j & -> & Hj & Hc & Hbefore). destruct j as [|j].
        -- rewrite Nat.add_0_r in Hc. congruence.
        -- exists j. rewrite Nat.add_succ_r in Hc. repeat split; auto with lia.
           intros j' Hj'. specialize (Hbefore (S j') ltac:(lia)).
           now rewrite Nat.add_succ_r in Hbefore.
Qed.

Lemma remove_recipient_at (clicked : nat -> bool) (ss : SessionState)
    (file : DataFile) (i : nat) :
  first_clicked clicked 0 (ss_recipients ss) = Some i ->
  (remove_recipient clicked ss file).1.1 =
  {| ss_recipients := delete i (ss_recipients ss); ss_topics := ss_topics ss |}.
Proof.
  intros H. unfold remove_recipient. rewrite H.
  match goal with |- context [save_data ?a ?b] =>
    destruct (save_data a b) as [f' [[]|e]] end; reflexivity.
Qed.

(** X7. Remove takes out exactly the recipient whose button was clicked,
    by position: the recipients before it keep their positions, those after
    it move up by one in the same order, each with its topics and
    notifications, and the catalog is unchanged.  This holds whether or not
    the following [save_data] returns. *)
Theorem remove_recipient_positional (clicked : nat -> bool) (ss : SessionState)
    (file : DataFile) (i : nat) :
  i < length (ss_recipients ss) ->
  clicked i = true ->
  (forall j, j < i -> clicked j = false) ->
  length (ss_recipients (remove_recipient clicked ss file).1.1)
    = length (ss_recipients ss) - 1 /\
  (forall j, j < i ->
     ss_recipients (remove_recipient clicked ss file).1.1 !! j
       = ss_recipients ss !! j) /\
  (forall j, i <= j ->
     ss_recipients (remove_recipient clicked ss file).1.1 !! j
       = ss_recipients ss !! S j) /\
  ss_topics (remove_recipient clicked ss file).1.1 = ss_topics ss.
Proof.
  intros Hi Hc Hbefore.
  rewrite (remove_recipient_at clicked ss file i).
  - simpl. split; [apply length_delete, lookup_lt_is_Some; exact Hi|].
    split; [intros j Hj; now apply list_lookup_delete_lt|].
    split; [intros j Hj; now apply list_lookup_delete_ge|reflexivity].
  - apply first_clicked_Some. exists i. auto.
Qed.

Lemma remove_recipient_positional_witness :
  let a := {| email := "a@x.com"; topics := []; notifications := [] |} in
  let b := {| email := "b@x.com"; topics := ["billing"]; notifications := [] |} in
  let ss := {| ss_recipients := [a; b; a]; ss_topics := ["billing"] |} in
  1 < length (ss_recipients ss) /\
  ss_recipients (remove_recipient (Nat.eqb 1) ss NoFile).1.1 !! 0 = Some a /\
  ss_recipients (remove_recipient (Nat.eqb 1) ss NoFile).1.1 !! 1 = Some a.
Proof.
  intros a b ss.
  assert (H1 : 1 < length (ss_recipients ss)) by (simpl; lia).
  assert (H2 : forall j, j < 1 -> Nat.eqb 1 j = false)
    by (intros [|j] Hj; [reflexivity|lia]).
  destruct (remove_recipient_positional (Nat.eqb 1) ss NoFile 1 H1 eq_refl H2)
    as (_ & Hlt & Hge & _).
  split; [exact H1|]. split.
  - rewrite (Hlt 0) by lia. reflexivity.
  - rewrite (Hge 1) by lia. reflexivity.
Defined.



(** ** The spreadsheet id *)

Lemma str_app_cons (c : Ascii.ascii) (a b : string) :
  (String c a ++ b)%string = String c (a ++ b)%string.
Proof. reflexivity. Qed.

Lemma str_length_app (a b : string) :
  String.length (a ++ b)%string = String.length a + String.length b.
Proof.
  induction a as [|c a IH]; [reflexivity|].
  rewrite str_app_cons. simpl. now rewrite IH.
Qed.

Lemma str_app_nil_r (a : string) : (a ++ "")%string = a.
Proof.
  induction a as [|c a IH]; [reflexivity|]. rewrite str_app_cons. now rewrite IH.
Qed.

Lemma substring_all (s : string) : substring 0 (String.length s) s = s.
Proof. induction s as [|c s IH]; simpl; [reflexivity|now rewrite IH]. Qed.

Lemma substring_app_l (a b : string) :
  substring 0 (String.length a) (a ++ b)%string = a.
Proof.
  induction a as [|c a IH]; [now destruct b|].
  rewrite str_app_cons. simpl. now rewrite IH.
Qed.

Lemma substring_app_skip (a b : string) (k n : nat) :
  substring (String.length a + k) n (a ++ b)%string = substring k n b.
Proof.
  induction a as [|c a IH]; [reflexivity|]. rewrite str_app_cons. simpl. exact IH.
Qed.

Lemma substring_length (s : string) (n m : nat) :
  String.length (substring n m s) <= String.length s - n.
Proof.
  revert n m; induction s as [|c s IH]; intros [|n] [|m]; simpl; try lia.
  - specialize (IH 0 m). lia.
  - apply IH.
  - apply IH.
Qed.

Lemma prefix_length (a s : string) :
  String.prefix a s = true -> String.length a <= String.length s.
Proof.
  revert a; induction s as [|c s IH]; intros [|d a]; simpl; try lia; try discriminate.
  destruct (Ascii.ascii_dec d c); [|discriminate]. intros H. apply IH in H. lia.
Qed.

Lemma index_bound (sep s : string) (i : nat) :
  index 0 sep s = Some i -> i + String.length sep <= String.length s.
Proof.
  revert i; induction s as [|c s IH]; intros i; cbn [index].
  - destruct sep; [|discriminate]. intros [= <-]. simpl. lia.
  - destruct (String.prefix sep (String c s)) eqn:Hp.
    + intros [= <-]. apply prefix_length in Hp. lia.
    + destruct (index 0 sep s) as [k|]; [|discriminate].
      intros [= <-]. specialize (IH k eq_refl). simpl String.length. lia.
Qed.

(** The fuel of [str_split] is enough: more changes nothing. *)
Lemma split_fuel_enough (sep : string) :
  sep <> ""%string ->
  forall (f1 f2 : nat) (s : string),
    String.length s < f1 -> String.length s < f2 ->
    split_fuel f1 sep s = split_fuel f2 sep s.
Proof.
  intros Hsep. induction f1 as [|f1 IH]; intros [|f2] s H1 H2; try lia.
  simpl. destruct (index 0 sep s) as [i|] eqn:Hi; [|reflexivity].
  f_equal. pose proof (index_bound _ _ _ Hi) as Hb.
  assert (0 < String.length sep) by (destruct sep; [congruence|simpl; lia]).
  pose proof (substring_length s (i + String.length sep)
                (String.length s - (i + String.length sep))) as Hl.
  apply IH; lia.
Qed.

Lemma split_fuel_cut (f : nat) (sep s : string) (i : nat) :
  index 0 sep s = Some i ->
  split_fuel (S f) sep s =
  substring 0 i s ::
  split_fuel f sep (substring (i + String.length sep)
                              (String.length s - (i + String.length sep)) s).
Proof. intros H. simpl. now rewrite H. Qed.

Lemma split_fuel_whole (f : nat) (sep s : string) :
  index 0 sep s = None -> split_fuel (S f) sep s = [s].
Proof. intros H. simpl. now rewrite H. Qed.

Lemma split_fuel_head (f : nat) (sep s : string) :
  exists x, split_fuel f sep s !! 0 = Some x.
Proof.
  destruct f as [|f]; simpl; [eauto|]. destruct (index 0 sep s); simpl; eauto.
Qed.

(** X9. The spreadsheet id is always defined: the indexing of the split
    pieces never fails, whatever the input.  An input in which
    spreadsheets/d/ does not occur is its own id. *)
Theorem sheet_id_of_total (sheet_url : string) :
  (exists id, sheet_id_of sheet_url = Some id) /\
  (index 0 "spreadsheets/d/" sheet_url = None ->
   sheet_id_of sheet_url = Some sheet_url).
Proof.
  unfold sheet_id_of, str_contains.
  destruct (index 0 "spreadsheets/d/" sheet_url) as [i|] eqn:Hi.
  - split; [|discriminate].
    unfold str_split. rewrite (split_fuel_cut (String.length sheet_url) _ _ _ Hi).
    match goal with |- context [(_ :: split_fuel ?f ?sep ?s) !! 1] =>
      destruct (split_fuel_head f sep s) as [part Hpart];
      change ((substring 0 i sheet_url :: split_fuel f sep s) !! 1)
        with (split_fuel f sep s !! 0); rewrite Hpart
    end.
    cbn [mbind option_bind].
    apply (split_fuel_head (S (String.length part)) "/" part).
  - split; [eauto|reflexivity].
Qed.

Lemma index_slash_app (id r : string) :
  index 0 "/" id = None ->
  index 0 "/" (id ++ "/" ++ r)%string = Some (String.length id).
Proof.
  induction id as [|c id IH].
  { intros _. change (index 0 "/" (String.append "/" r) = Some 0).
    unfold String.append. cbn [index String.prefix].
    match goal with |- context [Ascii.ascii_dec ?a ?b] =>
      destruct (Ascii.ascii_dec a b) end; [now destruct r|congruence]. }
  rewrite str_app_cons. cbn [index String.prefix String.length].
  match goal with |- context [Ascii.ascii_dec ?a ?b] =>
    destruct (Ascii.ascii_dec a b) as [Heq|Hc] end.
  - destruct id; discriminate.
  - destruct (index 0 "/" id) as [k|]; [discriminate|].
    intros _. now rewrite (IH eq_refl).
Qed.

(** X10. The id of a spreadsheet URL.  When spreadsheets/d/ first occurs
    after [pre], is followed by [id], which has no slash, and the URL ends
    there or goes on with a slash, the id taken is [id] (provided
    spreadsheets/d/ does not occur a second time in what follows). *)
Theorem sheet_id_of_url (pre id rest : string) :
  index 0 "spreadsheets/d/" (pre ++ "spreadsheets/d/" ++ id ++ rest)%string
    = Some (String.length pre) ->
  index 0 "/" id = None ->
  (rest = ""%string \/ exists r, rest = ("/" ++ r)%string) ->
  index 0 "spreadsheets/d/" (id ++ rest)%string = None ->
  sheet_id_of (pre ++ "spreadsheets/d/" ++ id ++ rest)%string = Some id.
Proof.
  intros H1 H2 H3 H4. unfold sheet_id_of, str_contains. rewrite H1.
  unfold str_split.
  rewrite (split_fuel_cut
             (String.length (pre ++ "spreadsheets/d/" ++ id ++ rest)%string) _ _ _ H1).
  assert (Htail :
    substring (String.length pre + String.length "spreadsheets/d/")
      (String.length (pre ++ "spreadsheets/d/" ++ id ++ rest)%string
       - (String.length pre + String.length "spreadsheets/d/"))
      (pre ++ "spreadsheets/d/" ++ id ++ rest)%string
    = (id ++ rest)%string).
  { rewrite substring_app_skip.
    change (substring (String.length "spreadsheets/d/") ?n
              ("spreadsheets/d/" ++ id ++ rest)%string)
      with (substring 0 n (id ++ rest)%string).
    rewrite !str_length_app.
    replace (String.length pre +
             (String.length "spreadsheets/d/" +
              (String.length id + String.length rest))
             - (String.length pre + String.length "spreadsheets/d/"))
      with (String.length (id ++ rest)%string)
      by (rewrite str_length_app; lia).
    apply substring_all. }
  rewrite Htail.
  assert (Hfuel : exists k,
            String.length (pre ++ "spreadsheets/d/" ++ id ++ rest)%string = S k).
  { rewrite !str_length_app. simpl. eexists. rewrite Nat.add_succ_r. reflexivity. }
  destruct Hfuel as [k ->].
  rewrite (split_fuel_whole _ _ _ H4).
  change (split_fuel (S (String.length (id ++ rest)%string)) "/" (id ++ rest)%string
            !! 0 = Some id).
  destruct H3 as [->|[r ->]].
  - rewrite str_app_nil_r. now rewrite (split_fuel_whole _ _ _ H2).
  - rewrite (split_fuel_cut _ _ _ _ (index_slash_app id r H2)).
    change (Some (substring 0 (String.length id) (id ++ "/" ++ r)%string) = Some id).
    now rewrite substring_app_l.
Qed.

Lemma sheet_id_of_url_witness :
  let pre := "https://docs.google.com/"%string in
  let id := "1UOkiD82jEluQK6ZRmtTfxjr1Tgi9ZAKgls_ygq-bzE8"%string in
  let rest := "/edit#gid=0"%string in
  index 0 "spreadsheets/d/" (pre ++ "spreadsheets/d/" ++ id ++ rest)%string
    = Some (String.length pre) /\
  index 0 "/" id = None /\
  index 0 "spreadsheets/d/" (id ++ rest)%string = None /\
  sheet_id_of (pre ++ "spreadsheets/d/" ++ id ++ rest)%string = Some id.
Proof.
  intros pre id rest.
  split; [reflexivity|]. split; [reflexivity|]. split; [reflexivity|].
  apply (sheet_id_of_url pre id rest);
    [reflexivity|reflexivity|right; exists "edit#gid=0"%string; reflexivity|reflexivity].
Defined.

(** ** Topics from the sheet *)

Lemma unique_from_spec (l seen : list string) :
  NoDup (unique_from seen l) /\
  forall x, x ∈ unique_from seen l <-> x ∈ l /\ x ∉ seen.
Proof.
  revert seen; induction l as [|y l IH]; intros seen; simpl.
  - split; [constructor|]. intros x. rewrite elem_of_nil. tauto.
  - destruct (IH seen) as [Hnd1 Hin1]. destruct (IH (y :: seen)) as [Hnd2 Hin2].
    case_bool_decide as Hy.
    + split; [exact Hnd1|]. intros x. rewrite Hin1, elem_of_cons.
      split; [tauto|]. intros [[->|Hx] Hs]; [contradiction|tauto].
    + split.
      * apply NoDup_cons. split; [|exact Hnd2].
        rewrite Hin2, elem_of_cons. tauto.
      * intros x. rewrite !elem_of_cons, Hin2, elem_of_cons.
        destruct (decide (x = y)) as [->|Hne]; tauto.
Qed.

Lemma unique_from_prefix (l1 l2 seen : list string) :
  unique_from seen l1 `prefix_of` unique_from seen (l1 ++ l2).
Proof.
  revert seen; induction l1 as [|y l1 IH]; intros seen; simpl.
  - apply prefix_nil.
  - case_bool_decide; [apply IH|]. apply prefix_cons, IH.
Qed.

(** The third cells of the rows survive the frame: filling a row puts
    missing values after its cells, and [dropna] takes them out again. *)
Lemma pad_row_lookup (w k : nat) (row : list string) :
  default None (pad_row w row !! k) = row !! k.
Proof.
  unfold pad_row. rewrite lookup_app, list_lookup_fmap.
  destruct (row !! k) as [x|] eqn:Hk; simpl; [reflexivity|].
  destruct (replicate (w - length row) None !! (k - length (Some <$> row)))
    as [y|] eqn:Hr; [|reflexivity].
  now apply lookup_replicate_1 in Hr as [-> _].
Qed.

Lemma omap_id_fmap {A B : Type} (f : A -> option B) (l : list A) :
  omap id (f <$> l) = omap f l.
Proof.
  induction l as [|x l IH]; csimpl; [reflexivity|].
  rewrite IH. reflexivity.
Qed.

Lemma dropna_column (w k : nat) (rows : list (list string)) :
  dropna (iloc_column k (pad_row w <$> rows)) = omap (fun row => row !! k) rows.
Proof.
  unfold dropna, iloc_column. rewrite <- list_fmap_compose, omap_id_fmap.
  induction rows as [|row rows IH]; csimpl; [reflexivity|].
  rewrite pad_row_lookup, IH. reflexivity.
Qed.

Lemma max_width_rectangular (w : nat) (row : list string) (rows : list (list string)) :
  Forall (fun r => length r = w) (row :: rows) -> max_width (row :: rows) = w.
Proof.
  revert row; induction rows as [|r rows IH]; intros row Hall.
  - inversion Hall; subst. simpl. lia.
  - inversion Hall as [|? ? Hrow Hrest]; subst.
    change (Nat.max (length row) (max_width (r :: rows)) = length row).
    rewrite (IH r Hrest). inversion Hrest; subst. lia.
Qed.

Lemma topics_of_sheet_rectangular (header : list string) (rows : list (list string)) :
  3 <= length header ->
  Forall (fun row => length row = length header) rows ->
  topics_of_sheet (header :: rows) = unique (omap (fun row => row !! 2) rows).
Proof.
  intros Hw Hrect. unfold topics_of_sheet, DataFrame.
  destruct rows as [|row rows].
  - destruct (Nat.ltb_spec (length header) 3); [lia|reflexivity].
  - rewrite (max_width_rectangular _ _ _ Hrect), Nat.eqb_refl.
    destruct (Nat.ltb_spec (length header) 3); [lia|].
    now rewrite dropna_column.
Qed.

Lemma topics_of_sheet_NoDup (data : list (list string)) :
  NoDup (topics_of_sheet data).
Proof.
  unfold topics_of_sheet. destruct data as [|header rows]; [constructor|].
  destruct (DataFrame rows header) as [df|]; [|constructor].
  destruct (length header <? 3); [constructor|].
  apply unique_from_spec.
Qed.

(** X11. The topics loaded from a sheet never contain a value twice,
    whatever the sheet holds and whatever goes wrong while loading. *)
Theorem loaded_topics_distinct (fetch : string -> option (list (list string)))
    (sheet_url : string) :
  NoDup (load_topics_from_sheets fetch sheet_url).
Proof.
  unfold load_topics_from_sheets.
  destruct (sheet_id_of sheet_url) as [id|]; [|constructor].
  destruct (fetch id) as [data|]; [|constructor].
  apply topics_of_sheet_NoDup.
Qed.

(** X12. On a sheet whose rows all have the width of the header, at least
    three cells, the topics are exactly the third cells of the rows below
    the header: every such cell is a topic, the empty string included, and
    nothing of the header row is. *)
Theorem sheet_topics_third_column (header : list string) (rows : list (list string)) :
  3 <= length header ->
  Forall (fun row => length row = length header) rows ->
  forall t, t ∈ topics_of_sheet (header :: rows) <->
            exists row, row ∈ rows /\ row !! 2 = Some t.
Proof.
  intros Hw Hrect t. rewrite (topics_of_sheet_rectangular _ _ Hw Hrect).
  unfold unique. destruct (unique_from_spec (omap (fun row => row !! 2) rows) [])
    as [_ Hin].
  rewrite Hin, list_elem_of_omap, elem_of_nil. tauto.
Qed.

Lemma sheet_topics_third_column_witness :
  let header := ["Date"; "Owner"; "Topic"] in
  let rows := [ ["1"; "ann"; "billing"]; ["2"; "bob"; ""]; ["3"; "cy"; "billing"] ] in
  3 <= length header /\
  Forall (fun row => length row = length header) rows /\
  ("billing" ∈ topics_of_sheet (header :: rows) <->
   exists row, row ∈ rows /\ row !! 2 = Some "billing").
Proof.
  intros header rows.
  assert (H1 : 3 <= length header) by (simpl; lia).
  assert (H2 : Forall (fun row => length row = length header) rows)
    by (repeat constructor).
  split; [exact H1|]. split; [exact H2|].
  exact (sheet_topics_third_column header rows H1 H2 "billing").
Defined.

(** X13. Rows added at the bottom of such a sheet only add topics at the
    end: the topics of the shorter sheet are, in order, the first topics of
    the longer one. *)
Theorem sheet_topics_append (header : list string) (rows more : list (list string)) :
  3 <= length header ->
  Forall (fun row => length row = length header) (rows ++ more) ->
  topics_of_sheet (header :: rows) `prefix_of` topics_of_sheet (header :: rows ++ more).
Proof.
  intros Hw Hrect.
  rewrite (topics_of_sheet_rectangular _ _ Hw Hrect).
  apply Forall_app in Hrect as [Hrows _].
  rewrite (topics_of_sheet_rectangular _ _ Hw Hrows).
  rewrite omap_app. apply unique_from_prefix.
Qed.

Lemma sheet_topics_append_witness :
  let header := ["Date"; "Owner"; "Topic"] in
  let rows := [ ["1"; "ann"; "billing"]; ["2"; "bob"; "security"] ] in
  let more := [ ["3"; "cy"; "billing"]; ["4"; "di"; "news"] ] in
  3 <= length header /\
  Forall (fun row => length row = length header) (rows ++ more) /\
  topics_of_sheet (header :: rows) `prefix_of` topics_of_sheet (header :: rows ++ more).
Proof.
  intros header rows more.
  assert (H1 : 3 <= length header) by (simpl; lia).
  assert (H2 : Forall (fun row => length row = length header) (rows ++ more))
    by (repeat constructor).
  split; [exact H1|]. split; [exact H2|].
  exact (sheet_topics_append header rows more H1 H2).
Defined.

Lemma topics_of_sheet_none (data : list (list string)) :
  (data = [] \/
   exists header rows, data = header :: rows /\ (length header < 3 \/ rows = [])) ->
  topics_of_sheet data = [].
Proof.
  intros [->|(header & rows & -> & Hcase)]; [reflexivity|].
  unfold topics_of_sheet. destruct (DataFrame rows header) as [df|] eqn:Hdf;
    [|reflexivity].
  destruct (Nat.ltb_spec (length header) 3) as [Hlt|Hge]; [reflexivity|].
  destruct Hcase as [Hlt| ->]; [lia|].
  simpl in Hdf. injection Hdf as <-. reflexivity.
Qed.

(** X14. Load Topics never changes the recipients, whatever is loaded, so
    topics a recipient is subscribed to stay with the recipient when they
    leave the catalog.  When the fetch raises, or the sheet has no values,
    only a header row, or fewer than three columns, the catalog and
    data.json stay as they were too. *)
Theorem load_topics_keeps_state (fetch : string -> option (list (list string)))
    (clicked : bool) (sheets_input : string) (ss : SessionState) (file : DataFile) :
  ss_recipients (load_topics fetch clicked sheets_input ss file).1.1
    = ss_recipients ss /\
  forall id,
    sheet_id_of sheets_input = Some id ->
    (fetch id = None \/
     exists data, fetch id = Some data /\
       (data = [] \/
        exists header rows,
          data = header :: rows /\ (length header < 3 \/ rows = []))) ->
    load_topics fetch clicked sheets_input ss file = (ss, file, Ok tt).
Proof.
  split.
  - unfold load_topics. destruct (clicked && negb (String.eqb sheets_input ""));
      [|reflexivity].
    destruct (load_topics_from_sheets fetch sheets_input); reflexivity.
  - intros id Hid Hcase. unfold load_topics.
    destruct (clicked && negb (String.eqb sheets_input "")); [|reflexivity].
    assert (Hnone : load_topics_from_sheets fetch sheets_input = []).
    { unfold load_topics_from_sheets. rewrite Hid.
      destruct Hcase as [->|(data & -> & Hdata)]; [reflexivity|].
      now apply topics_of_sheet_none. }
    now rewrite Hnone.
Qed.

(** ** Messages sent by the notification schedule *)

Lemma sent_in_spec (config : option EmailConfig) (r : string) (s : Selection)
    (m : Email) :
  m ∈ sent_in config r s ->
  is_Some config /\ msg_to m = r /\ sel_frequency s = "instant" /\
  sel_send_now s = true /\
  msg_subject m = ("Notification Update: " ++ sel_topic s)%string.
Proof.
  unfold sent_in.
  destruct (String.eqb_spec (sel_frequency s) "instant") as [Hf|Hf]; simpl;
    [|intros H; now apply elem_of_nil in H].
  destruct (sel_send_now s); [|intros H; now apply elem_of_nil in H].
  destruct config as [c|]; [|intros H; now apply elem_of_nil in H].
  intros ->%list_elem_of_singleton. simpl. eauto.
Qed.

Lemma sent_in_length (config : option EmailConfig) (r : string) (s : Selection) :
  length (sent_in config r s) <= 1.
Proof.
  unfold sent_in. destruct (String.eqb (sel_frequency s) "instant" && sel_send_now s);
    [destruct config|]; simpl; lia.
Qed.

(** X15. What a run of the notification schedule sends.  Messages are only
    added to those already sent, at most one per iteration.  Each one goes
    to the selected recipient, for a topic selected with instant whose Send
    Now button was clicked, with the subject Notification Update and the
    topic, and only when a sender is configured: a recurring frequency
    never sends, and neither does a run without configuration. *)
Theorem schedule_sends (config : option EmailConfig) (r : string)
    (ns : list Notification) (outbox : list Email) (sels : list Selection) :
  exists ns' sent,
    notification_schedule config r (ns, outbox) sels = Ok (ns', outbox ++ sent) /\
    length sent <= length sels /\
    forall m, m ∈ sent ->
      is_Some config /\ msg_to m = r /\
      exists s, s ∈ sels /\ sel_frequency s = "instant" /\
                sel_send_now s = true /\
                msg_subject m = ("Notification Update: " ++ sel_topic s)%string.
Proof.
  revert ns outbox; induction sels as [|s sels IH]; intros ns outbox.
  - exists ns, []. simpl. rewrite app_nil_r. split; [reflexivity|].
    split; [lia|]. intros m Hm. now apply elem_of_nil in Hm.
  - simpl. rewrite schedule_topic_eq.
    destruct (merge_step_total ns (sel_topic s) (sel_frequency s) (sel_now s))
      as [ns1 ->]. simpl.
    destruct (IH ns1 (outbox ++ sent_in config r s)) as (ns' & sent & Hrun & Hlen & Hsent).
    exists ns', (sent_in config r s ++ sent). rewrite app_assoc.
    split; [exact Hrun|]. split.
    + rewrite length_app. pose proof (sent_in_length config r s). lia.
    + intros m [Hm|Hm]%elem_of_app.
      * destruct (sent_in_spec _ _ _ _ Hm) as (Hc & Hto & Hf & Hclick & Hsub).
        split; [exact Hc|]. split; [exact Hto|].
        exists s. split; [apply list_elem_of_here|auto].
      * destruct (Hsent m Hm) as (Hc & Hto & s' & Hs' & Hrest).
        split; [exact Hc|]. split; [exact Hto|].
        exists s'. split; [now apply list_elem_of_further|exact Hrest].
Qed.

(** ** The tab without a click *)


